(** * Stability patterns of go-reference: Breaker, Debounce and Retry

    A shallow embedding of [stability_patterns.go].  Each decorator closes
    over a few variables and talks to the outside through [time.Now], the
    wrapped function, and (for Retry) a [select] on a timer and [ctx.Done()].
    The closure variables are a record threaded through every call; the
    outside is a [World] that supplies clock readings, runs the wrapped
    function on its own environment and counts how often it was run.

    A call of a closure runs from start to end.  The mutexes are there only
    as the sections they delimit: Debounce holds its lock for the whole
    call, and Breaker has a section under the read lock and one under the
    write lock, which [Breaker_burst] lets several callers go through
    section by section. *)

From Stdlib Require Import ZArith List String Bool Lia.
From Equations Require Import Equations.
Import ListNotations.

Open Scope string_scope.
Open Scope Z_scope.

(** ** Machine integers

    [int] and [time.Duration] are 64-bit two's complement; [uint] is 64-bit
    unsigned.  Values are kept in [Z] and every operation that can leave the
    range says how it wraps. *)
Module Int64.

Definition modulus : Z := 18446744073709551616.
Definition half_modulus : Z := 9223372036854775808.
Definition max_int : Z := 9223372036854775807.
Definition min_int : Z := -9223372036854775808.
Definition max_uint : Z := 18446744073709551615.

Definition in_range (z : Z) : Prop := min_int <= z <= max_int.
Definition uint_range (z : Z) : Prop := 0 <= z <= max_uint.

(** The representative of [z] modulo 2^64 in the signed range. *)
Definition wrap (z : Z) : Z := (z + half_modulus) mod modulus - half_modulus.

(** [int(u)] for [u : uint]. *)
Definition of_uint (u : Z) : Z := wrap u.

Definition add (a b : Z) : Z := wrap (a + b).
Definition sub (a b : Z) : Z := wrap (a - b).

(** [x << s] for a non-negative count [s]: the bits shifted past the top
    are dropped, so counts of 64 and more give 0. *)
Definition shl (x s : Z) : Z := wrap (Z.shiftl x s).

End Int64.

(** ** Package time

    An instant is a count of nanoseconds since the zero [Time]; a [Duration]
    is a signed 64-bit count of nanoseconds.  Instants are kept exact. *)
Module time.

Definition Time : Type := Z.
Definition Duration : Type := Z.

Definition Nanosecond : Duration := 1.
Definition Second : Duration := 1000000000.

(** The zero value of [Time], which a [var threshold time.Time] holds. *)
Definition zero : Time := 0.

Definition Add (t : Time) (d : Duration) : Time := t + d.
Definition After (t u : Time) : bool := u <? t.
Definition Before (t u : Time) : bool := t <? u.

End time.

(** ** Errors

    A Go [error] is [nil] or an error value. *)
Inductive error_value : Type :=
| errors_New (msg : string)
| context_Canceled
| context_DeadlineExceeded.

Definition error : Type := option error_value.
Definition nil : error := None.

Definition is_nil (e : error) : bool :=
  match e with None => true | Some _ => false end.

(** What [func(context.Context) (string, error)] returns. *)
Definition Response : Type := (string * error)%type.

Section Decorators.

(** The state of whatever the wrapped function talks to, and the type of
    cancellation contexts. *)
Variable Env : Type.
Variable Context : Type.

(** [clock n] is what the [n]-th call of [time.Now()] returns. *)
Variable clock : nat -> time.Time.

(** ** The outside world *)
Record World : Type := mkWorld {
  env : Env;
  ticks : nat;         (* calls of time.Now() so far *)
  invocations : nat    (* calls of the wrapped function so far *)
}.

(** [type Circuit func(context.Context) (string, error)], as its effect on
    the environment.  [Effector] is the same type. *)
Definition Circuit : Type := Context -> Env -> Response * Env.
Definition Effector : Type := Circuit.

(** ** A state monad over the closure variables [V] and the world *)
Definition M (V A : Type) : Type := V -> World -> A * V * World.

Definition ret {V A} (a : A) : M V A := fun v w => (a, v, w).

Definition bind {V A B} (m : M V A) (k : A -> M V B) : M V B :=
  fun v w => let '(a, v1, w1) := m v w in k a v1 w1.

Definition get {V} : M V V := fun v w => (v, v, w).
Definition put {V} (v' : V) : M V unit := fun _ w => (tt, v', w).

(** The world after one more clock reading. *)
Definition tick (w : World) : World :=
  {| env := env w; ticks := S (ticks w); invocations := invocations w |}.

(** The world after one more run of the wrapped function, which left the
    environment as [e]. *)
Definition ran (e : Env) (w : World) : World :=
  {| env := e; ticks := ticks w; invocations := S (invocations w) |}.

(** [time.Now()] *)
Definition time_Now {V} : M V time.Time :=
  fun v w => (clock (ticks w), v, tick w).

(** [circuit(ctx)]: the wrapped function runs on the environment, and the
    run is counted. *)
Definition call {V} (circuit : Circuit) (ctx : Context) : M V Response :=
  fun v w => let '(r, e) := circuit ctx (env w) in (r, v, ran e w).

(** [defer f]: [f] runs once the returned values have been computed. *)
Definition defer {V A} (f : M V unit) (body : M V A) : M V A :=
  bind body (fun a => bind f (fun _ => ret a)).

Notation "x <- m ;; k" := (bind m (fun x => k))
  (at level 61, m at next level, right associativity).
Notation "m ;;; k" := (bind m (fun _ => k))
  (at level 61, right associativity).

(** Running [f] [n] times in a row, one call after the other. *)
Fixpoint calls {V} (f : M V Response) (n : nat) : M V (list Response) :=
  match n with
  | O => ret []
  | S k => r <- f ;; rs <- calls f k ;; ret (r :: rs)
  end.

(** ** Breaker *)

Record breaker : Type := mkBreaker {
  consecutiveFailures : Z;     (* int *)
  lastAttempt : time.Time
}.

Definition service_unreachable : error_value :=
  errors_New "service unreachable".

(** [time.Second * 2 << d]: [*] and [<<] have the same precedence and
    associate to the left, and the product is a [Duration]. *)
Definition backoff (d : Z) : time.Duration :=
  Int64.shl (time.Second * 2) d.

(** [d := consecutiveFailures - int(failureThreshold)] *)
Definition overshoot (s : breaker) (failureThreshold : Z) : Z :=
  Int64.sub (consecutiveFailures s) (Int64.of_uint failureThreshold).

(** The variables [Breaker] declares before it returns the closure. *)
Definition Breaker_new (w : World) : breaker * World :=
  let '(now, _, w1) := time_Now tt w in
  ({| consecutiveFailures := 0; lastAttempt := now |}, w1).

Definition set_lastAttempt (t : time.Time) : M breaker unit :=
  fun s => put {| consecutiveFailures := consecutiveFailures s;
                  lastAttempt := t |} s.

Definition set_consecutiveFailures (n : Z) : M breaker unit :=
  fun s => put {| consecutiveFailures := n;
                  lastAttempt := lastAttempt s |} s.

(** From [m.RLock()] to [m.RUnlock()]: [true] when the call is turned
    away, which is the early [return] of the closure. *)
Definition Breaker_gate (failureThreshold : Z) : M breaker bool :=
  s <- get ;;
  let d := overshoot s failureThreshold in
  if d >=? 0 then
    let shouldRetryAt := time.Add (lastAttempt s) (backoff d) in
    now <- time_Now ;;
    if negb (time.After now shouldRetryAt) then ret true else ret false
  else ret false.

(** From [m.Lock()] to the deferred [m.Unlock()], with what the circuit
    returned. *)
Definition Breaker_record (r : Response) : M breaker Response :=
  let '(response, err) := r in
  now <- time_Now ;;
  set_lastAttempt now ;;;
  if negb (is_nil err) then
    s <- get ;;
    set_consecutiveFailures (Int64.add (consecutiveFailures s) 1) ;;;
    ret (response, err)
  else
    set_consecutiveFailures 0 ;;;
    ret (response, nil).

(** What a caller does once it is through the gate section. *)
Definition Breaker_proceed (circuit : Circuit) (ctx : Context)
           (rejected : bool) : M breaker Response :=
  if rejected then ret ("", Some service_unreachable)
  else r <- call circuit ctx ;; Breaker_record r.

(** The closure [Breaker] returns. *)
Definition Breaker (circuit : Circuit) (failureThreshold : Z)
           (ctx : Context) : M breaker Response :=
  rejected <- Breaker_gate failureThreshold ;;
  Breaker_proceed circuit ctx rejected.

(** [n] goroutines that enter the closure together: the gate section only
    takes the read lock, so all of them can be through it before the first
    one takes the write lock. *)
Fixpoint Breaker_gates (failureThreshold : Z) (n : nat)
  : M breaker (list bool) :=
  match n with
  | O => ret []
  | S k => g <- Breaker_gate failureThreshold ;;
           gs <- Breaker_gates failureThreshold k ;;
           ret (g :: gs)
  end.

Fixpoint Breaker_proceed_all (circuit : Circuit) (ctx : Context)
         (gs : list bool) : M breaker (list Response) :=
  match gs with
  | [] => ret []
  | g :: gs' => r <- Breaker_proceed circuit ctx g ;;
                rs <- Breaker_proceed_all circuit ctx gs' ;;
                ret (r :: rs)
  end.

Definition Breaker_burst (circuit : Circuit) (failureThreshold : Z)
           (ctx : Context) (n : nat) : M breaker (list Response) :=
  gs <- Breaker_gates failureThreshold n ;;
  Breaker_proceed_all circuit ctx gs.

(** ** Debounce *)

Record debounce : Type := mkDebounce {
  threshold : time.Time;
  result : string;
  err : error
}.

(** [var threshold time.Time; var result string; var err error] *)
Definition Debounce_new : debounce :=
  {| threshold := time.zero; result := ""; err := nil |}.

Definition set_threshold (t : time.Time) : M debounce unit :=
  fun s => put {| threshold := t; result := result s; err := err s |} s.

Definition set_result_err (r : Response) : M debounce unit :=
  fun s => put {| threshold := threshold s;
                  result := fst r; err := snd r |} s.

(** The closure [Debounce] returns. *)
Definition Debounce (circuit : Circuit) (duration : time.Duration)
           (ctx : Context) : M debounce Response :=
  defer (now <- time_Now ;; set_threshold (time.Add now duration))
    (now <- time_Now ;;
     s <- get ;;
     if time.Before now (threshold s) then
       ret (result s, err s)
     else
       r <- call circuit ctx ;;
       set_result_err r ;;;
       s <- get ;;
       ret (result s, nil)).

(** ** Retry *)

(** Which case of the [select] was taken. *)
Inductive woken : Type :=
| timer_fired     (* case <-time.After(delay) *)
| ctx_done.       (* case <-ctx.Done() *)

(** The [select] blocks until the timer or the context is ready; which one
    it was is up to the environment, and so is what [ctx.Err()] is. *)
Variable select_wait : time.Duration -> Context -> Env -> woken * Env.
Variable ctx_Err : Context -> Env -> error.

Section RetryLoop.

Variable effector : Effector.
Variable retries : Z.            (* int *)
Variable delay : time.Duration.
Variable ctx : Context.

(** [resp, err := effector(ctx)] *)
Definition attempt (w : World) : Response * World :=
  let '(r, _, w1) := call effector ctx tt w in (r, w1).

(** The [select] statement. *)
Definition wait (w : World) : woken * World :=
  let '(k, e) := select_wait delay ctx (env w) in
  (k, {| env := e; ticks := ticks w; invocations := invocations w |}).

(** [for r := 0; ; r++ { ... }] from the iteration with counter [r].
    The loop goes round only while [r < retries], so [retries - r]
    shrinks, and [r + 1] stays below [retries]. *)
Equations? retry_loop (r : Z) (w : World)
  : Response * World by wf (Z.to_nat (retries - r)) lt :=
  retry_loop r w with attempt w => {
    | ((resp, err), w1)
        with Logic.inspect (is_nil err || (r >=? retries)) => {
        | exist _ true _ := ((resp, nil), w1);
        | exist _ false Hgo with wait w1 => {
            | (timer_fired, w2) := retry_loop (r + 1) w2;
            | (ctx_done, w2) := (("", ctx_Err ctx (env w2)), w2) } } }.
Proof.
  apply orb_false_iff in Hgo. destruct Hgo as [_ Hgo].
  rewrite Z.geb_leb in Hgo. apply Z.leb_gt in Hgo. lia.
Qed.

(** The closure [Retry] returns. *)
Definition Retry (w : World) : Response * World := retry_loop 0 w.

(** The iterations a call of the closure started in [w0] gets to: the
    loop is at counter [r] in world [w]. *)
Inductive retry_at (w0 : World) : Z -> World -> Prop :=
| retry_at_start : retry_at w0 0 w0
| retry_at_next r w resp err w1 w2 :
    retry_at w0 r w ->
    attempt w = ((resp, err), w1) ->
    is_nil err || (r >=? retries) = false ->
    wait w1 = (timer_fired, w2) ->
    retry_at w0 (r + 1) w2.

End RetryLoop.

End Decorators.

Arguments mkWorld {Env}.
Arguments env {Env}.
Arguments ticks {Env}.
Arguments invocations {Env}.
Arguments tick {Env}.
Arguments ran {Env}.
Arguments ret {Env V A}.
Arguments bind {Env V A B}.
Arguments call {Env Context V}.
Arguments time_Now {Env} clock {V}.
Arguments calls {Env V}.
Arguments Breaker_new {Env}.
Arguments Breaker_gate {Env}.
Arguments Breaker_record {Env}.
Arguments Breaker_proceed {Env Context}.
Arguments Breaker {Env Context}.
Arguments Breaker_gates {Env}.
Arguments Breaker_proceed_all {Env Context}.
Arguments Breaker_burst {Env Context}.
Arguments Debounce {Env Context}.
Arguments attempt {Env Context}.
Arguments wait {Env Context}.
Arguments retry_loop {Env Context}.
Arguments Retry {Env Context}.
Arguments retry_at {Env Context}.

(** ** A scripted environment

    The service answers from a list of replies, the [select] from a list of
    outcomes; both fall back to a fixed answer when the list is used up. *)
Module Script.

Record script : Type := mkScript {
  replies : list Response;
  wakes : list woken
}.

Definition boom : error_value := errors_New "boom".

Definition service : Circuit script unit :=
  fun _ e =>
    match replies e with
    | [] => (("down", Some boom), e)
    | r :: rs => (r, {| replies := rs; wakes := wakes e |})
    end.

Definition select_wait (_ : time.Duration) (_ : unit) (e : script)
  : woken * script :=
  match wakes e with
  | [] => (timer_fired, e)
  | k :: ks => (k, {| replies := replies e; wakes := ks |})
  end.

Definition ctx_Err (_ : unit) (_ : script) : error := Some context_Canceled.

(** A service that is down for good, and a context nobody cancels. *)
Definition down : Circuit script unit :=
  fun _ e => (("down", Some boom), e).

Definition patient (_ : time.Duration) (_ : unit) (e : script)
  : woken * script := (timer_fired, e).

Definition start (rs : list Response) (ks : list woken) : World script :=
  {| env := {| replies := rs; wakes := ks |};
     ticks := 0; invocations := 0 |}.

(** A clock that advances by [step] per reading. *)
Definition every (step : time.Duration) (n : nat) : time.Time :=
  Z.of_nat n * step.

Definition millis : nat -> time.Time := every 1000000.
Definition seconds : nat -> time.Time := every time.Second.

(** One millisecond per reading up to reading 34, and a second later from
    there on. *)
Definition burst_clock (n : nat) : time.Time :=
  if (n <=? 34)%nat then millis n else millis n + time.Second.

End Script.

(** ** Scenarios on the scripted environment *)
Module Scenario.

Import Script.

(** A breaker made at reading 0 of the clock, the service being down. *)
Definition fresh (clock : nat -> time.Time) : breaker * World script :=
  Breaker_new clock (start [] []).

(** Threshold 1; 34 goroutines enter together and all fail. *)
Definition after_burst : list Response * breaker * World script :=
  Breaker_burst burst_clock service 1 tt 34
    (fst (fresh burst_clock)) (snd (fresh burst_clock)).

(** Threshold 0 and 33 calls one after the other, each made a nanosecond
    after the backoff of the one before has run out, and one more call a
    second after the last.  Reading [2k] is where call [k] finds
    [lastAttempt], reading [2k + 1] is its gate. *)
Definition waited_out (n : nat) : time.Time :=
  let k := Z.of_nat (n / 2) in
  if (n <=? 66)%nat then
    if Nat.even n then (2 ^ (k + 1) - 2) * time.Second + k
    else (2 ^ (k + 2) - 2) * time.Second + k + 1
  else (2 ^ 34 - 2) * time.Second + 33 + time.Second.

Definition after_33 : list Response * breaker * World script :=
  calls (Breaker waited_out service 0 tt) 33
    (fst (fresh waited_out)) (snd (fresh waited_out)).

(** Threshold 1, a reading every three seconds, two calls. *)
Definition paced : nat -> time.Time := every (3 * time.Second).

Definition after_two : list Response * breaker * World script :=
  calls (Breaker paced service 1 tt) 2 (fst (fresh paced)) (snd (fresh paced)).

(** A debounce of ten seconds over the failing service, a reading every
    second: a first call and the call right after it. *)
Definition ten_seconds : time.Duration := 10 * time.Second.

Definition first_call : Response * debounce * World script :=
  Debounce seconds service ten_seconds tt Debounce_new (start [] []).

Definition second_call : Response * debounce * World script :=
  Debounce seconds service ten_seconds tt
    (snd (fst first_call)) (snd first_call).

(** The same with a reading every second up to reading 3 and a gap of
    eight seconds before reading 4: a first call, a second call right
    after it, and a third call at 12 s. *)
Definition gap_clock (n : nat) : time.Time :=
  if (n <=? 3)%nat then seconds n else seconds (n + 8).

Definition gap_first : Response * debounce * World script :=
  Debounce gap_clock service ten_seconds tt Debounce_new (start [] []).

Definition gap_second : Response * debounce * World script :=
  Debounce gap_clock service ten_seconds tt
    (snd (fst gap_first)) (snd gap_first).

Definition gap_third : Response * debounce * World script :=
  Debounce gap_clock service ten_seconds tt
    (snd (fst gap_second)) (snd gap_second).

(** A retry whose second wait ends on [ctx.Done()]. *)
Definition cancelled_start : World script :=
  start [] [timer_fired; ctx_done].

End Scenario.

(** ** Decorators over decorators

    What a decorator returns has the type of what it takes.  In the
    embedding the closure variables and the world of the inner closure are
    the environment of the outer one. *)
Section Stacking.

Variables Env Context V : Type.

(** A closure with variables [V] as a [Circuit]. *)
Definition as_Circuit (f : Context -> M Env V Response)
  : Circuit (V * World Env) Context :=
  fun ctx e => let '(r, v, w) := f ctx (fst e) (snd e) in (r, (v, w)).

(** The [select] and [ctx.Err()] of the inner environment, seen from
    outside: they leave the closure variables and the counters alone. *)
Definition select_under
           (select_wait : time.Duration -> Context -> Env -> woken * Env)
  : time.Duration -> Context -> V * World Env -> woken * (V * World Env) :=
  fun d ctx e =>
    let '(k, e1) := select_wait d ctx (env (snd e)) in
    (k, (fst e, {| env := e1; ticks := ticks (snd e);
                   invocations := invocations (snd e) |})).

Definition ctx_Err_under (ctx_Err : Context -> Env -> error)
  : Context -> V * World Env -> error :=
  fun ctx e => ctx_Err ctx (env (snd e)).

(** [n] calls of the bare circuit, one after the other. *)
Fixpoint direct (circuit : Circuit Env Context) (ctx : Context) (n : nat)
         (e : Env) : list Response * Env :=
  match n with
  | O => ([], e)
  | S k => let '(r, e1) := circuit ctx e in
           let '(rs, e2) := direct circuit ctx k e1 in
           (r :: rs, e2)
  end.

End Stacking.

Arguments as_Circuit {Env Context V}.
Arguments select_under {Env Context V}.
Arguments ctx_Err_under {Env Context V}.
Arguments direct {Env Context}.

(** ** The future of the fan-in file

    [InnerFuture.Result] and [SlowFunction].  Each of the two channels has
    one sender, the goroutine [SlowFunction] starts, and one receiver,
    [Result]; a channel is kept as the values sent on it that are still to
    be received, and a receive that finds nothing blocks for good. *)
Module Future.

Record InnerFuture : Type := mkInnerFuture {
  once : bool;             (* sync.Once: has Do run its function *)
  wg : Z;                  (* sync.WaitGroup: the counter *)
  res : string;
  err : error;
  resCh : list string;
  errCh : list error
}.

(** [<-ch] *)
Definition recv {A : Type} (ch : list A) : option (A * list A) :=
  match ch with
  | [] => None
  | a :: rest => Some (a, rest)
  end.

(** The function handed to [f.once.Do]; [None] when a receive blocks. *)
Definition Result_once (f : InnerFuture) : option InnerFuture :=
  let added := wg f + 1 in                         (* f.wg.Add(1) *)
  match recv (resCh f) with                        (* f.res = <-f.resCh *)
  | None => None
  | Some (r, resCh') =>
      match recv (errCh f) with                    (* f.err = <-f.errCh *)
      | None => None
      | Some (e, errCh') =>
          Some {| once := true; wg := added - 1;   (* defer f.wg.Done() *)
                  res := r; err := e;
                  resCh := resCh'; errCh := errCh' |}
      end
  end.

(** [func (f *InnerFuture) Result() (string, error)]; [None] when the call
    blocks for good. *)
Definition Result (f : InnerFuture) : option (Response * InnerFuture) :=
  match (if once f then Some f else Result_once f) with
  | None => None
  | Some f1 =>
      if wg f1 =? 0 then Some ((res f1, err f1), f1)   (* f.wg.Wait() *)
      else None
  end.

Section SlowFunction.

Variables Env Context : Type.
Variable select_wait : time.Duration -> Context -> Env -> woken * Env.
Variable ctx_Err : Context -> Env -> error.

(** What the goroutine sends, on [resCh] and then on [errCh]. *)
Definition slow_sends (ctx : Context) (e : Env) : Response * Env :=
  let '(k, e1) := select_wait (time.Second * 2) ctx e in
  match k with
  | timer_fired => (("I slept for 2 seconds", nil), e1)
  | ctx_done => (("", ctx_Err ctx e1), e1)
  end.

(** [SlowFunction(ctx)]: the future as [Result] finds it once the goroutine
    is out of its [select] and has its two sends on offer.  The wait until
    then is not modelled. *)
Definition SlowFunction (ctx : Context) (e : Env) : InnerFuture * Env :=
  let '(sends, e1) := slow_sends ctx e in
  ({| once := false; wg := 0; res := ""; err := nil;
      resCh := [fst sends]; errCh := [snd sends] |}, e1).

End SlowFunction.

Arguments slow_sends {Env Context}.
Arguments SlowFunction {Env Context}.

End Future.

(** ** [stream] of the context file

    The loop of [stream] has no exit but [ctx.Done()], so it is run on
    fuel: [None] is a loop still going when the fuel is used up. *)
Module Stream.

(** Which case of the [select] in the loop was taken. *)
Inductive chosen : Type :=
| sent        (* case out <- resp *)
| done.       (* case <-ctx.Done() *)

Section Stream.

Variables Env Context : Type.
Variable select_send : Context -> Z -> Env -> chosen * Env.
Variable ctx_Err : Context -> Env -> error.

(** [context.WithTimeout(ctx, time.Second*10)]: the derived context. *)
Variable WithTimeout : Context -> time.Duration -> Context.

(** [func slowOperation(ctx context.Context) (int, error)] *)
Definition slowOperation (ctx : Context) : Z * error := (0, nil).

(** The [for { select { ... } }] of [stream]; the values that went out on
    [out] are collected in [log], latest first. *)
Fixpoint stream_loop (fuel : nat) (ctx : Context) (resp : Z)
         (e : Env) (log : list Z) : option error * Env * list Z :=
  match fuel with
  | O => (None, e, log)
  | S fuel' =>
      let '(c, e1) := select_send ctx resp e in
      match c with
      | sent => stream_loop fuel' ctx resp e1 (resp :: log)
      | done => (Some (ctx_Err ctx e1), e1, log)
      end
  end.

(** [func stream(ctx context.Context, out chan<- int) error] *)
Definition stream (fuel : nat) (ctx : Context) (e : Env)
  : option error * Env * list Z :=
  let dctx := WithTimeout ctx (time.Second * 10) in
  let '(resp, err) := slowOperation dctx in
  if negb (is_nil err) then (Some err, e, [])
  else stream_loop fuel ctx resp e [].

End Stream.

Arguments stream_loop {Env Context}.
Arguments stream {Env Context}.

End Stream.

(** ** More scenarios *)
Module Scenario2.

Import Script.

(** A service that answers from its replies and is fine once they are used
    up. *)
Definition flaky : Circuit script unit :=
  fun _ e =>
    match replies e with
    | [] => (("fine", nil), e)
    | r :: rs => (r, {| replies := rs; wakes := wakes e |})
    end.

Definition failed : Response := ("down", Some boom).

(** The service fails twice and then is fine. *)
Definition twice_down : World script := start [failed; failed] [].

(** A breaker with threshold 0 that has seen one failure, at 0 s. *)
Definition tripped : breaker :=
  {| consecutiveFailures := 1; lastAttempt := 0 |}.

(** A service that fails every time, with the word of its next reply as
    the result, and "last" when the replies are used up. *)
Definition numbered : Circuit script unit :=
  fun _ e =>
    match replies e with
    | [] => (("last", Some boom), e)
    | r :: rs => ((fst r, Some boom), {| replies := rs; wakes := wakes e |})
    end.

Definition three_words : World script :=
  start [("first", nil); ("second", nil); ("third", nil)] [].

(** The [select] of [stream]: [out] has a taker as long as there are
    replies left to drop, then the context is done. *)
Definition takers (_ : unit) (_ : Z) (e : script) : Stream.chosen * script :=
  match replies e with
  | [] => (Stream.done, e)
  | _ :: rs => (Stream.sent, {| replies := rs; wakes := wakes e |})
  end.

End Scenario2.

(** * Properties *)

(** ** Wrap-around arithmetic *)

Lemma wrap_in_range (z : Z) : Int64.in_range (Int64.wrap z).
Proof.
  unfold Int64.in_range, Int64.wrap, Int64.min_int, Int64.max_int.
  pose proof (Z.mod_pos_bound (z + Int64.half_modulus) Int64.modulus) as H.
  unfold Int64.modulus, Int64.half_modulus in *. lia.
Qed.

Lemma wrap_small (z : Z) : Int64.in_range z -> Int64.wrap z = z.
Proof.
  unfold Int64.in_range, Int64.wrap, Int64.min_int, Int64.max_int.
  intros H. rewrite Z.mod_small.
  - lia.
  - unfold Int64.modulus, Int64.half_modulus. lia.
Qed.

Lemma wrap_periodic (z k : Z) :
  Int64.wrap (z + k * Int64.modulus) = Int64.wrap z.
Proof.
  unfold Int64.wrap.
  replace (z + k * Int64.modulus + Int64.half_modulus)
    with (z + Int64.half_modulus + k * Int64.modulus) by lia.
  rewrite Z_mod_plus_full. reflexivity.
Qed.

Lemma wrap_offset (z : Z) : exists k, Int64.wrap z = z + k * Int64.modulus.
Proof.
  exists (- ((z + Int64.half_modulus) / Int64.modulus)).
  unfold Int64.wrap.
  pose proof (Z.div_mod (z + Int64.half_modulus) Int64.modulus) as H.
  assert (Int64.modulus <> 0) as Hm by (unfold Int64.modulus; lia).
  specialize (H Hm). lia.
Qed.

Lemma wrap_add_l (a b : Z) : Int64.wrap (Int64.wrap a + b) = Int64.wrap (a + b).
Proof.
  destruct (wrap_offset a) as [k ->].
  replace (a + k * Int64.modulus + b) with (a + b + k * Int64.modulus) by lia.
  apply wrap_periodic.
Qed.

Lemma wrap_sub_wrap (a b : Z) :
  Int64.wrap (Int64.wrap a - Int64.wrap b) = Int64.wrap (a - b).
Proof.
  destruct (wrap_offset a) as [k ->]. destruct (wrap_offset b) as [j ->].
  replace (a + k * Int64.modulus - (b + j * Int64.modulus))
    with (a - b + (k - j) * Int64.modulus) by lia.
  apply wrap_periodic.
Qed.

(** While the shifted value fits, [2s << d] is [2^(d+1)] seconds; this is so
    up to [d = 32]. *)
Lemma backoff_exact (d : Z) :
  0 <= d <= 32 -> backoff d = 2 ^ (d + 1) * time.Second.
Proof.
  intros Hd. unfold backoff, Int64.shl.
  rewrite Z.shiftl_mul_pow2 by lia.
  rewrite Z.pow_add_r by lia.
  assert (0 < 2 ^ d) by (apply Z.pow_pos_nonneg; lia).
  assert (2 ^ d <= 2 ^ 32) by (apply Z.pow_le_mono_r; lia).
  change (2 ^ 32) with 4294967296 in *.
  rewrite wrap_small.
  - unfold time.Second. lia.
  - unfold Int64.in_range, Int64.min_int, Int64.max_int, time.Second. nia.
Qed.

(** ** Runs of calls *)

Lemma calls_S {Env V} (f : M Env V Response) (n : nat) (v : V) (w : World Env) :
  calls f (S n) v w =
  let '(r, v1, w1) := f v w in
  let '(rs, v2, w2) := calls f n v1 w1 in
  (r :: rs, v2, w2).
Proof.
  cbn [calls]. unfold bind. destruct (f v w) as [[r v1] w1].
  destruct (calls f n v1 w1) as [[rs v2] w2]. reflexivity.
Qed.

(** ** Breaker *)

Section BreakerFacts.

Variables Env Context : Type.
Variable clock : nat -> time.Time.
Variable circuit : Circuit Env Context.
Variable failureThreshold : Z.
Variable ctx : Context.

Implicit Types (s : breaker) (w : World Env).

(** The gate section in closed form. *)
Lemma Breaker_gate_eq s w :
  Breaker_gate clock failureThreshold s w =
  if overshoot s failureThreshold >=? 0 then
    (clock (ticks w) <=?
       lastAttempt s + backoff (overshoot s failureThreshold), s, tick w)
  else (false, s, w).
Proof.
  unfold Breaker_gate, bind, get, time_Now, ret, time.After, time.Add.
  destruct (overshoot s failureThreshold >=? 0); [|reflexivity].
  rewrite Z.leb_antisym.
  destruct (lastAttempt s + backoff (overshoot s failureThreshold)
            <? clock (ticks w)); reflexivity.
Qed.

(** What a caller that got through the gate does, in closed form. *)
Lemma Breaker_proceed_eq s w :
  Breaker_proceed clock circuit ctx false s w =
  let out := circuit ctx (env w) in
  let failed := negb (is_nil (snd (fst out))) in
  ((fst (fst out), snd (fst out)),
   {| consecutiveFailures :=
        if failed then Int64.add (consecutiveFailures s) 1 else 0;
      lastAttempt := clock (ticks w) |},
   tick (ran (snd out) w)).
Proof.
  unfold Breaker_proceed, Breaker_record, bind, call, time_Now,
    set_lastAttempt, set_consecutiveFailures, get, put, ret, nil.
  destruct (circuit ctx (env w)) as [[response e] en]; simpl.
  destruct e; reflexivity.
Qed.

Lemma Breaker_rejects s w :
  0 <= overshoot s failureThreshold ->
  clock (ticks w) <= lastAttempt s + backoff (overshoot s failureThreshold) ->
  Breaker clock circuit failureThreshold ctx s w =
  (("", Some service_unreachable), s, tick w).
Proof.
  intros Hd Hnow. unfold Breaker, bind. rewrite Breaker_gate_eq.
  replace (overshoot s failureThreshold >=? 0) with true
    by (symmetry; rewrite Z.geb_leb; apply Z.leb_le; assumption).
  replace (clock (ticks w) <=? _) with true
    by (symmetry; apply Z.leb_le; assumption).
  reflexivity.
Qed.

Lemma Breaker_closed s w :
  overshoot s failureThreshold < 0 ->
  Breaker clock circuit failureThreshold ctx s w =
  Breaker_proceed clock circuit ctx false s w.
Proof.
  intros Hd. unfold Breaker, bind. rewrite Breaker_gate_eq.
  replace (overshoot s failureThreshold >=? 0) with false
    by (symmetry; rewrite Z.geb_leb; apply Z.leb_gt; assumption).
  reflexivity.
Qed.

Lemma Breaker_probes s w :
  0 <= overshoot s failureThreshold ->
  lastAttempt s + backoff (overshoot s failureThreshold) < clock (ticks w) ->
  Breaker clock circuit failureThreshold ctx s w =
  Breaker_proceed clock circuit ctx false s (tick w).
Proof.
  intros Hd Hnow. unfold Breaker, bind. rewrite Breaker_gate_eq.
  replace (overshoot s failureThreshold >=? 0) with true
    by (symmetry; rewrite Z.geb_leb; apply Z.leb_le; assumption).
  replace (clock (ticks w) <=? _) with false
    by (symmetry; apply Z.leb_gt; assumption).
  reflexivity.
Qed.

(** Every call is of one of two kinds: turned away at the gate, or let
    through to the circuit after at most one clock reading. *)
Lemma Breaker_outcomes s w :
  (0 <= overshoot s failureThreshold /\
   Breaker clock circuit failureThreshold ctx s w =
   (("", Some service_unreachable), s, tick w))
  \/
  (exists w1,
      invocations w1 = invocations w /\ env w1 = env w /\
      Breaker clock circuit failureThreshold ctx s w =
      Breaker_proceed clock circuit ctx false s w1).
Proof.
  destruct (Z_lt_le_dec (overshoot s failureThreshold) 0) as [Hd|Hd].
  - right. exists w. rewrite Breaker_closed by assumption. auto.
  - destruct (Z_le_gt_dec (clock (ticks w))
                (lastAttempt s + backoff (overshoot s failureThreshold)))
      as [Hnow|Hnow].
    + left. rewrite Breaker_rejects by assumption. auto.
    + right. exists (tick w). rewrite Breaker_probes by lia. auto.
Qed.

(** A run of calls that all end in an error: the counter has gone up by
    the number of times the circuit was run, modulo 2^64. *)
Lemma Breaker_failures_counted n : forall s w rs s' w',
  calls (Breaker clock circuit failureThreshold ctx) n s w = (rs, s', w') ->
  Forall (fun r => snd r <> nil) rs ->
  Int64.in_range (consecutiveFailures s) ->
  (invocations w <= invocations w')%nat /\
  consecutiveFailures s' =
    Int64.wrap (consecutiveFailures s
                + Z.of_nat (invocations w' - invocations w)).
Proof.
  induction n as [|n IH]; intros s w rs s' w' Hrun Hall Hcf.
  - cbn in Hrun. injection Hrun as <- <- <-.
    rewrite Nat.sub_diag, Z.add_0_r, wrap_small by assumption. lia.
  - cbn [calls] in Hrun. unfold bind at 1 in Hrun.
    destruct (Breaker clock circuit failureThreshold ctx s w)
      as [[r s1] w1] eqn:Hcall.
    unfold bind at 1 in Hrun.
    destruct (calls _ n s1 w1) as [[rs1 s2] w2] eqn:Hrest.
    unfold ret in Hrun. injection Hrun as <- <- <-.
    inversion Hall as [|? ? Hr Hrs]; subst.
    destruct (Breaker_outcomes s w) as [[Hd Heq]|(w0 & Hinv & Henv & Heq)];
      rewrite Hcall in Heq.
    + injection Heq as -> -> ->.
      destruct (IH _ _ _ _ _ Hrest Hrs Hcf) as [Hle Hc].
      cbn [tick invocations] in *. split; assumption.
    + rewrite Breaker_proceed_eq in Heq. cbn zeta in Heq.
      injection Heq as Hr' Hs1 Hw1. subst r.
      cbn [snd] in Hr.
      destruct (snd (fst (circuit ctx (env w0)))) as [e|] eqn:He;
        [|contradiction].
      cbn in Hs1.
      assert (Int64.in_range (consecutiveFailures s1)) as Hcf1
        by (subst s1; apply wrap_in_range).
      destruct (IH _ _ _ _ _ Hrest Hrs Hcf1) as [Hle Hc].
      assert (invocations w1 = S (invocations w)) as Hw
        by (subst w1; cbn; congruence).
      rewrite Hw in *. split; [lia|].
      rewrite Hc. subst s1. cbn [consecutiveFailures]. unfold Int64.add.
      rewrite wrap_add_l. f_equal. lia.
Qed.

Lemma Breaker_proceed_invokes s w :
  invocations (snd (Breaker_proceed clock circuit ctx false s w)) =
  S (invocations w).
Proof. rewrite Breaker_proceed_eq. reflexivity. Qed.

(** Over the range where neither the conversion of the threshold nor the
    shift wraps, the gate is the one of the design: closed below the
    threshold, and from the threshold on shut for [2^(d+1)] seconds after
    the last attempt. *)
Lemma Breaker_gate_within_range s w :
  0 <= failureThreshold <= Int64.max_int ->
  0 <= consecutiveFailures s <= Int64.max_int ->
  let d := consecutiveFailures s - failureThreshold in
  d <= 32 ->
  (0 <= d ->
   clock (ticks w) <= lastAttempt s + 2 ^ (d + 1) * time.Second ->
   Breaker clock circuit failureThreshold ctx s w =
   (("", Some service_unreachable), s, tick w)) /\
  (d < 0 \/ lastAttempt s + 2 ^ (d + 1) * time.Second < clock (ticks w) ->
   invocations (snd (Breaker clock circuit failureThreshold ctx s w)) =
   S (invocations w)).
Proof.
  intros Ht Hc d Hd.
  assert (overshoot s failureThreshold = d) as Ho.
  { unfold overshoot, Int64.sub, Int64.of_uint.
    rewrite (wrap_small failureThreshold), wrap_small; [reflexivity| |];
      unfold Int64.in_range, Int64.min_int, Int64.max_int in *; lia. }
  split.
  - intros Hd0 Hnow. apply Breaker_rejects; rewrite Ho; [assumption|].
    rewrite backoff_exact by lia. assumption.
  - intros [Hneg|Hnow].
    + rewrite Breaker_closed by lia. apply Breaker_proceed_invokes.
    + destruct (Z_lt_le_dec d 0) as [Hneg|Hd0].
      * rewrite Breaker_closed by lia. apply Breaker_proceed_invokes.
      * rewrite Breaker_probes;
          [rewrite Breaker_proceed_invokes; reflexivity|lia|].
        rewrite Ho, backoff_exact by lia. assumption.
Qed.

(** Through any run of calls the counter stays between 0 and what it was
    plus the number of calls, as long as that is within [int]: it never
    wraps in fewer than 2^63 calls. *)
Lemma Breaker_counter_bounds n : forall s w rs s' w',
  calls (Breaker clock circuit failureThreshold ctx) n s w = (rs, s', w') ->
  0 <= consecutiveFailures s ->
  consecutiveFailures s + Z.of_nat n <= Int64.max_int ->
  0 <= consecutiveFailures s' <= consecutiveFailures s + Z.of_nat n.
Proof.
  induction n as [|n IH]; intros s w rs s' w' Hrun H0 Hmax.
  - cbn in Hrun. injection Hrun as _ <- _. lia.
  - rewrite calls_S in Hrun.
    destruct (Breaker clock circuit failureThreshold ctx s w)
      as [[r s1] w1] eqn:Hcall.
    destruct (calls _ n s1 w1) as [[rs1 s2] w2] eqn:Hrest.
    injection Hrun as _ <- _.
    assert (0 <= consecutiveFailures s1 <= consecutiveFailures s + 1) as H1.
    { destruct (Breaker_outcomes s w) as [[_ Heq]|(w0 & _ & _ & Heq)];
        rewrite Hcall in Heq.
      - injection Heq as _ -> _. lia.
      - rewrite Breaker_proceed_eq in Heq. cbn zeta in Heq.
        injection Heq as _ -> _. cbn [consecutiveFailures].
        destruct (negb _); [|lia].
        unfold Int64.add. rewrite wrap_small; [lia|].
        unfold Int64.in_range, Int64.min_int, Int64.max_int in *. lia. }
    specialize (IH _ _ _ _ _ Hrest). lia.
Qed.

End BreakerFacts.

Section BreakerClaims.

Variables Env Context : Type.
Variable clock : nat -> time.Time.
Variable circuit : Circuit Env Context.
Variable ctx : Context.

Implicit Types (s : breaker) (w : World Env) (t k : Z).

(** A run of failing calls that starts with the counter at 0 and runs the
    circuit [j] times leaves the counter at [j]. *)
Lemma Breaker_failures_from_zero t n s0 w0 rs s w :
  consecutiveFailures s0 = 0 ->
  calls (Breaker clock circuit t ctx) n s0 w0 = (rs, s, w) ->
  Forall (fun r => snd r <> nil) rs ->
  (invocations w0 <= invocations w)%nat /\
  consecutiveFailures s =
    Int64.wrap (Z.of_nat (invocations w) - Z.of_nat (invocations w0)).
Proof.
  intros H0 Hrun Hall.
  destruct (Breaker_failures_counted _ _ clock circuit t ctx n
              _ _ _ _ _ Hrun Hall) as [Hle Hc].
  - rewrite H0. unfold Int64.in_range, Int64.min_int, Int64.max_int. lia.
  - split; [assumption|]. rewrite Hc, H0. f_equal. lia.
Qed.

(** C2, as the code has it.  Take any threshold [t] and a run of calls that
    starts with the counter at 0, in which every call ends in an error, and
    whose last call is a failed run of the circuit, the [t + 1 + k]-th of
    the run: the [k]-th failure beyond the threshold, counted from 0, for
    [k] = 0, 1 or 2.  After it the gate has [d = k + 1], [lastAttempt] is
    the clock reading made after that failure, and the backoff is
    [2^(k+2)] seconds: 4 s after exactly [t + 1] failures, then 8 s and
    16 s.  A next call that reads a clock not past
    [lastAttempt + 2^(k+2) s] is turned away with "service unreachable",
    the circuit is not run and the state stays as it is; a call that reads
    a later clock runs the circuit. *)
Theorem Breaker_trips_past_threshold t k n s0 w0 rs s1 w1 r s w :
  Int64.uint_range t ->
  0 <= k <= 2 ->
  consecutiveFailures s0 = 0 ->
  calls (Breaker clock circuit t ctx) n s0 w0 = (rs, s1, w1) ->
  Forall (fun r => snd r <> nil) rs ->
  Breaker clock circuit t ctx s1 w1 = (r, s, w) ->
  snd r <> nil ->
  invocations w = S (invocations w1) ->
  Z.of_nat (invocations w) = Z.of_nat (invocations w0) + (t + 1 + k) ->
  overshoot s t = k + 1 /\
  backoff (overshoot s t) = 2 ^ (k + 2) * time.Second /\
  lastAttempt s = clock (pred (ticks w)) /\
  (forall w',
      clock (ticks w') <= lastAttempt s + 2 ^ (k + 2) * time.Second ->
      Breaker clock circuit t ctx s w' =
      (("", Some service_unreachable), s, tick w') /\
      invocations (tick w') = invocations w') /\
  (forall w',
      lastAttempt s + 2 ^ (k + 2) * time.Second < clock (ticks w') ->
      invocations (snd (Breaker clock circuit t ctx s w')) =
      S (invocations w')).
Proof.
  intros _ Hk H0 Hrun Hall Hlast Hfail Hone Hinv.
  destruct (Breaker_failures_from_zero t n s0 w0 rs s1 w1 H0 Hrun Hall)
    as [Hle Hc1].
  assert (consecutiveFailures s = Int64.wrap (t + 1 + k) /\
          lastAttempt s = clock (pred (ticks w))) as [Hc Hpin].
  { destruct (Breaker_outcomes _ _ clock circuit t ctx s1 w1)
      as [[_ Heq]|(w2 & Hinv2 & _ & Heq)]; rewrite Hlast in Heq.
    - injection Heq as _ _ Hw. subst w. cbn [tick invocations] in Hone.
      exfalso. lia.
    - rewrite Breaker_proceed_eq in Heq. cbn zeta in Heq.
      injection Heq as Hr Hs Hw. subst r s w. cbn [snd] in Hfail.
      destruct (snd (fst (circuit ctx (env w2)))) as [e|]; [|contradiction].
      cbn [is_nil negb consecutiveFailures lastAttempt tick ran ticks
           invocations Nat.pred] in *.
      split; [|reflexivity].
      unfold Int64.add. rewrite Hc1, wrap_add_l. f_equal. lia. }
  assert (overshoot s t = k + 1) as Ho.
  { unfold overshoot, Int64.sub, Int64.of_uint. rewrite Hc.
    rewrite wrap_sub_wrap. replace (t + 1 + k - t) with (k + 1) by lia.
    apply wrap_small.
    unfold Int64.in_range, Int64.min_int, Int64.max_int. lia. }
  assert (backoff (k + 1) = 2 ^ (k + 2) * time.Second) as Hb.
  { rewrite backoff_exact by lia. f_equal. f_equal. lia. }
  rewrite Ho. split; [reflexivity|]. split; [assumption|].
  split; [assumption|]. split.
  - intros w' Hnow. split; [|reflexivity].
    apply Breaker_rejects; rewrite Ho; [lia|]. rewrite Hb. assumption.
  - intros w' Hnow. rewrite Breaker_probes.
    + rewrite Breaker_proceed_invokes. reflexivity.
    + rewrite Ho. lia.
    + rewrite Ho, Hb. assumption.
Qed.

(** C3. A call either leaves the circuit alone, and then the counter (with
    the rest of the state) is as before, or runs it once.  When the run
    succeeds the counter is 0 afterwards, whatever it was; when the run
    fails it is one more than before; so among the calls that run the
    circuit the counter ends at 0 exactly for the successful ones.  After
    such a success the old failures are gone: through any later run of
    failing calls the counter is the number of new failures, and as long
    as that number is below the threshold no call is turned away. *)
Theorem Breaker_counter t s w r s' w' :
  0 <= consecutiveFailures s < Int64.max_int ->
  Breaker clock circuit t ctx s w = (r, s', w') ->
  let out := fst (circuit ctx (env w)) in
  (invocations w' = invocations w \/ invocations w' = S (invocations w)) /\
  (invocations w' = invocations w -> s' = s) /\
  (invocations w' = S (invocations w) ->
   (snd out = nil -> consecutiveFailures s' = 0) /\
   (snd out <> nil ->
    consecutiveFailures s' = consecutiveFailures s + 1) /\
   (consecutiveFailures s' = 0 <-> snd out = nil)) /\
  (invocations w' = S (invocations w) -> snd out = nil ->
   forall n rs s2 w2,
     0 <= t <= Int64.max_int ->
     calls (Breaker clock circuit t ctx) n s' w' = (rs, s2, w2) ->
     Forall (fun r => snd r <> nil) rs ->
     Z.of_nat (invocations w2 - invocations w') < t ->
     consecutiveFailures s2 = Z.of_nat (invocations w2 - invocations w') /\
     forall w3,
       invocations (snd (Breaker clock circuit t ctx s2 w3)) =
       S (invocations w3)).
Proof.
  intros Hcf Hcall out.
  destruct (Breaker_outcomes _ _ clock circuit t ctx s w)
    as [[Hd Heq]|(w1 & Hinv & Henv & Heq)]; rewrite Hcall in Heq.
  - injection Heq as -> -> ->. cbn [tick invocations].
    split; [left; reflexivity|]. split; [reflexivity|].
    split; intros Habs; exfalso; lia.
  - rewrite Breaker_proceed_eq in Heq. cbn zeta in Heq.
    rewrite Henv in Heq. fold out in Heq.
    injection Heq as -> -> ->. cbn [tick ran invocations consecutiveFailures].
    rewrite Hinv.
    assert (Int64.add (consecutiveFailures s) 1 = consecutiveFailures s + 1)
      as Hinc.
    { unfold Int64.add. apply wrap_small.
      unfold Int64.in_range, Int64.min_int, Int64.max_int in *. lia. }
    split; [right; reflexivity|].
    split; [intros H; exfalso; lia|].
    split.
    + intros _. destruct (snd out) as [e|] eqn:He; cbn; rewrite ?Hinc.
      * unfold nil.
        split; [discriminate|]. split; [reflexivity|].
        split; [intros Habs; exfalso; lia|discriminate].
      * unfold nil.
        split; [reflexivity|]. split; [intros Habs; contradiction|].
        split; reflexivity.
    + intros _ Hok n rs s2 w2 Ht Hrun Hall Hlt. rewrite Hok in Hrun.
      unfold nil in Hrun. cbn [is_nil negb] in Hrun.
      assert (consecutiveFailures
                {| consecutiveFailures := 0;
                   lastAttempt := clock (ticks w1) |} = 0) as Hzero
        by reflexivity.
      destruct (Breaker_failures_from_zero t n _ _ rs s2 w2 Hzero Hrun Hall)
        as [Hle Hc].
      cbn [tick ran invocations] in *. rewrite Hinv in *.
      assert (consecutiveFailures s2 =
              Z.of_nat (invocations w2 - S (invocations w))) as Hc2.
      { rewrite Hc. rewrite wrap_small; [lia|].
        unfold Int64.in_range, Int64.min_int, Int64.max_int in *. lia. }
      split; [assumption|]. intros w3.
      rewrite Breaker_closed; [apply Breaker_proceed_invokes|].
      unfold overshoot, Int64.sub, Int64.of_uint.
      rewrite (wrap_small t), wrap_small;
        unfold Int64.in_range, Int64.min_int, Int64.max_int in *; lia.
Qed.

(** [n] calls in a row that are all turned away. *)
Lemma Breaker_turns_away_all t n : forall s w,
  0 <= overshoot s t ->
  (forall i, (i < n)%nat ->
     clock (ticks w + i)%nat <= lastAttempt s + backoff (overshoot s t)) ->
  calls (Breaker clock circuit t ctx) n s w =
  (repeat ("", Some service_unreachable) n, s,
   {| env := env w; ticks := (ticks w + n)%nat;
      invocations := invocations w |}).
Proof.
  induction n as [|n IH]; intros s w Hd Hnow.
  - destruct w. cbn. rewrite Nat.add_0_r. reflexivity.
  - cbn [calls]. unfold bind at 1.
    rewrite Breaker_rejects;
      [|assumption|specialize (Hnow O); rewrite Nat.add_0_r in Hnow;
                    apply Hnow; lia].
    unfold bind at 1. rewrite IH; [|assumption|].
    + unfold ret. cbn [repeat tick env ticks invocations].
      rewrite Nat.add_succ_r. reflexivity.
    + intros i Hi. cbn [tick ticks].
      replace (S (ticks w) + i)%nat with (ticks w + S i)%nat by lia.
      apply Hnow. lia.
Qed.

(** C9. The gate is at work as soon as the counter equals the threshold:
    then [d = 0] and a call that reads a clock not past
    [lastAttempt + 2 s] is turned away.  [lastAttempt] starts as the time
    of construction, so with threshold 0 every call of a new breaker that
    reads a clock less than 2 seconds after that time is turned away with
    "service unreachable", the circuit never having been run. *)
Theorem Breaker_gate_at_threshold :
  (forall t s w,
      0 <= t <= Int64.max_int ->
      consecutiveFailures s = t ->
      overshoot s t = 0 /\
      (clock (ticks w) <= lastAttempt s + 2 * time.Second ->
       Breaker clock circuit t ctx s w =
       (("", Some service_unreachable), s, tick w))) /\
  (forall w0 n,
      let s0 := fst (Breaker_new clock w0) in
      let w1 := snd (Breaker_new clock w0) in
      (forall i, (i < n)%nat ->
         clock (ticks w1 + i)%nat < clock (ticks w0) + 2 * time.Second) ->
      lastAttempt s0 = clock (ticks w0) /\
      invocations w1 = invocations w0 /\
      calls (Breaker clock circuit 0 ctx) n s0 w1 =
      (repeat ("", Some service_unreachable) n, s0,
       {| env := env w1; ticks := (ticks w1 + n)%nat;
          invocations := invocations w1 |})).
Proof.
  assert (forall t s, 0 <= t <= Int64.max_int ->
                      consecutiveFailures s = t -> overshoot s t = 0) as Ho.
  { intros t s Ht Hc. unfold overshoot, Int64.sub, Int64.of_uint.
    rewrite (wrap_small t), Hc, Z.sub_diag; [reflexivity|].
    unfold Int64.in_range, Int64.min_int, Int64.max_int in *. lia. }
  split.
  - intros t s w Ht Hc. split; [auto|]. intros Hnow.
    apply Breaker_rejects; rewrite (Ho t s Ht Hc); [lia|].
    rewrite backoff_exact by lia. assumption.
  - intros w0 n s0 w1 Hnow. repeat split.
    apply Breaker_turns_away_all;
      rewrite (Ho 0 s0) by (try reflexivity; unfold Int64.max_int; lia).
    + lia.
    + intros i Hi. rewrite backoff_exact by lia.
      specialize (Hnow i Hi). change (2 ^ (0 + 1)) with 2.
      subst s0. unfold Breaker_new, time_Now. cbn [fst lastAttempt]. lia.
Qed.

End BreakerClaims.

(** ** Debounce *)

Section DebounceFacts.

Variables Env Context : Type.
Variable clock : nat -> time.Time.
Variable circuit : Circuit Env Context.
Variable duration : time.Duration.
Variable ctx : Context.

Implicit Types (s : debounce) (w : World Env).

(** A call before the threshold, in closed form. *)
Lemma Debounce_cached s w :
  clock (ticks w) < threshold s ->
  Debounce clock circuit duration ctx s w =
  ((result s, err s),
   {| threshold := clock (S (ticks w)) + duration;
      result := result s; err := err s |},
   tick (tick w)).
Proof.
  intros Hnow.
  unfold Debounce, defer, bind, time_Now, get, ret, set_threshold, put,
    time.Before, time.Add.
  replace (clock (ticks w) <? threshold s) with true
    by (symmetry; apply Z.ltb_lt; assumption).
  reflexivity.
Qed.

(** A call at or after the threshold, in closed form. *)
Lemma Debounce_fresh s w :
  threshold s <= clock (ticks w) ->
  Debounce clock circuit duration ctx s w =
  let out := circuit ctx (env w) in
  ((fst (fst out), nil),
   {| threshold := clock (S (ticks w)) + duration;
      result := fst (fst out); err := snd (fst out) |},
   tick (ran (snd out) (tick w))).
Proof.
  intros Hnow.
  unfold Debounce, defer, bind, time_Now, get, ret, set_threshold,
    set_result_err, put, call, time.Before, time.Add.
  replace (clock (ticks w) <? threshold s) with false
    by (symmetry; apply Z.ltb_ge; assumption).
  cbn [tick env]. destruct (circuit ctx (env w)) as [r e]. reflexivity.
Qed.

(** The call that runs the circuit hands back a [nil] error, whatever the
    circuit returned. *)
Lemma Debounce_fresh_drops_error s w :
  threshold s <= clock (ticks w) ->
  snd (fst (fst (Debounce clock circuit duration ctx s w))) = nil /\
  invocations (snd (Debounce clock circuit duration ctx s w)) =
  S (invocations w).
Proof. intros H. rewrite Debounce_fresh by assumption. split; reflexivity. Qed.

(** A run of calls that are all served from the cache. *)
Lemma Debounce_cached_run n : forall s w,
  (n <> O -> clock (ticks w) < threshold s) ->
  (forall i, (S i < n)%nat ->
     clock (ticks w + 2 * S i)%nat <
     clock (ticks w + 2 * i + 1)%nat + duration) ->
  exists s' w',
    calls (Debounce clock circuit duration ctx) n s w =
    (repeat (result s, err s) n, s', w') /\
    result s' = result s /\ err s' = err s /\
    invocations w' = invocations w /\ env w' = env w /\
    ticks w' = (ticks w + 2 * n)%nat.
Proof.
  induction n as [|n IH]; intros s w Hfirst Hnext.
  - exists s, w. cbn. repeat split; auto.
  - cbn [calls]. unfold bind at 1.
    rewrite Debounce_cached by (apply Hfirst; discriminate).
    unfold bind at 1.
    destruct (IH {| threshold := clock (S (ticks w)) + duration;
                    result := result s; err := err s |} (tick (tick w)))
      as (s' & w' & Hrun & Hres & Herr & Hinv & Henv & Hticks).
    + intros Hn. cbn [tick ticks threshold].
      destruct n as [|n]; [contradiction|].
      specialize (Hnext O). rewrite Nat.add_0_r in Hnext.
      replace (S (S (ticks w))) with (ticks w + 2 * 1)%nat by lia.
      replace (S (ticks w)) with (ticks w + 1)%nat by lia.
      apply Hnext. lia.
    + intros i Hi. cbn [tick ticks].
      replace (S (S (ticks w)) + 2 * S i)%nat
        with (ticks w + 2 * S (S i))%nat by lia.
      replace (S (S (ticks w)) + 2 * i + 1)%nat
        with (ticks w + 2 * S i + 1)%nat by lia.
      apply Hnext. lia.
    + exists s', w'. rewrite Hrun. unfold ret. cbn in *.
      repeat split; auto. lia.
Qed.

(** After a run of at least one call, [threshold] is the last clock
    reading plus [duration]; each call reads the clock twice. *)
Lemma Debounce_threshold_after_run m : forall s0 w0 rs0 s' w',
  calls (Debounce clock circuit duration ctx) (S m) s0 w0 = (rs0, s', w') ->
  threshold s' = clock (ticks w' - 1)%nat + duration /\
  ticks w' = (ticks w0 + 2 * S m)%nat.
Proof.
  induction m as [|m IHm]; intros s0 w0 rs0 s' w' Hc.
  - cbn [calls] in Hc. unfold bind, ret in Hc.
    destruct (Z_lt_le_dec (clock (ticks w0)) (threshold s0)) as [H|H].
    + rewrite Debounce_cached in Hc by assumption.
      injection Hc as _ <- <-. cbn [threshold tick ran ticks].
      split; [f_equal; f_equal; lia|lia].
    + rewrite Debounce_fresh in Hc by assumption. cbn zeta in Hc.
      injection Hc as _ <- <-. cbn [threshold tick ran ticks].
      split; [f_equal; f_equal; lia|lia].
  - rewrite calls_S in Hc.
    destruct (Debounce clock circuit duration ctx s0 w0)
      as [[r0 s2] w2] eqn:H0.
    destruct (calls (Debounce clock circuit duration ctx) (S m) s2 w2)
      as [[rs2 s3] w3] eqn:H2.
    injection Hc as _ <- <-.
    destruct (IHm _ _ _ _ _ H2) as [Ht Hk].
    split; [assumption|]. rewrite Hk.
    assert (ticks w2 = S (S (ticks w0))) as ->; [|lia].
    destruct (Z_lt_le_dec (clock (ticks w0)) (threshold s0)) as [H|H].
    + rewrite Debounce_cached in H0 by assumption.
      injection H0 as _ _ <-. reflexivity.
    + rewrite Debounce_fresh in H0 by assumption. cbn zeta in H0.
      injection H0 as _ _ <-. reflexivity.
Qed.

End DebounceFacts.

Section DebounceClaims.

Variables Env Context : Type.
Variable clock : nat -> time.Time.
Variable circuit : Circuit Env Context.
Variable duration : time.Duration.
Variable ctx : Context.

Implicit Types (s : debounce) (w : World Env).

(** C5, as the code has it.  A call that reads a clock strictly before
    [threshold] returns the cached pair as it is, keeps it, and does not run
    the circuit.  When a first call runs the circuit and the next call reads
    a clock less than [duration] after the first one completed, that call is
    served from the cache: the two calls run the circuit once.  And after
    any call, served from the cache or not, a call that reads a clock
    [duration] or more after the completion of that call runs the circuit
    again. *)
Theorem Debounce_coalesces :
  (forall s w,
      clock (ticks w) < threshold s ->
      let call := Debounce clock circuit duration ctx s w in
      fst (fst call) = (result s, err s) /\
      invocations (snd call) = invocations w /\
      env (snd call) = env w /\
      result (snd (fst call)) = result s /\
      err (snd (fst call)) = err s) /\
  (forall s w,
      threshold s <= clock (ticks w) ->
      let first := Debounce clock circuit duration ctx s w in
      let second :=
        Debounce clock circuit duration ctx (snd (fst first)) (snd first) in
      let completed := clock (S (ticks w)) in
      invocations (snd first) = S (invocations w) /\
      (clock (ticks (snd first)) < completed + duration ->
       fst (fst second) = (result (snd (fst first)), err (snd (fst first))) /\
       invocations (snd second) = S (invocations w))) /\
  (forall s w w',
      let before := Debounce clock circuit duration ctx s w in
      let completed := clock (S (ticks w)) in
      completed + duration <= clock (ticks w') ->
      invocations
        (snd (Debounce clock circuit duration ctx (snd (fst before)) w')) =
      S (invocations w')).
Proof.
  split; [|split].
  - intros s w Hnow call. subst call. rewrite Debounce_cached by assumption.
    repeat split; reflexivity.
  - intros s w Hnow first second completed.
    assert (threshold (snd (fst first)) = completed + duration /\
            invocations (snd first) = S (invocations w)) as [Hth Hinv].
    { subst first completed. rewrite Debounce_fresh by assumption.
      split; reflexivity. }
    split; [assumption|].
    intros Hsoon. subst second.
    rewrite Debounce_cached by (rewrite Hth; assumption).
    split; [reflexivity|]. cbn [snd tick invocations]. assumption.
  - intros s w w' before completed Hlate.
    assert (threshold (snd (fst before)) = completed + duration) as Hth.
    { subst before completed.
      destruct (Z_lt_le_dec (clock (ticks w)) (threshold s)) as [H|H].
      - rewrite Debounce_cached by assumption. reflexivity.
      - rewrite Debounce_fresh by assumption. reflexivity. }
    apply Debounce_fresh_drops_error. rewrite Hth. assumption.
Qed.

(** C6, as the code has it.  On the cache path the cached result comes
    back together with the cached error.  The entry is written by the call
    that ran the circuit, which stores what the circuit returned, error
    included; so a later call before the threshold returns the circuit's
    error, and returns [nil] only when that run succeeded. *)
Theorem Debounce_replays_cached_error s w w' :
  threshold s <= clock (ticks w) ->
  let out := fst (circuit ctx (env w)) in
  let s1 := snd (fst (Debounce clock circuit duration ctx s w)) in
  clock (ticks w') < threshold s1 ->
  result s1 = fst out /\ err s1 = snd out /\
  fst (fst (Debounce clock circuit duration ctx s1 w')) = (fst out, snd out) /\
  invocations (snd (Debounce clock circuit duration ctx s1 w')) =
  invocations w' /\
  (snd (fst (fst (Debounce clock circuit duration ctx s1 w'))) = nil <->
   snd out = nil).
Proof.
  intros Hfresh out s1 Hsoon.
  assert (result s1 = fst out /\ err s1 = snd out) as [Hres Herr].
  { subst s1 out. rewrite Debounce_fresh by assumption.
    split; reflexivity. }
  rewrite Debounce_cached by assumption.
  cbn [fst snd tick invocations]. rewrite Hres, Herr.
  repeat split; auto.
Qed.

(** C10. Every call, served from the cache or not, makes its second clock
    reading as it completes and leaves [threshold] at that reading plus
    [duration].  So after any call, further calls that each read a clock
    less than [duration] after the completion of the call before are all
    served from the cache, however many they are: the circuit is not run
    again. *)
Theorem Debounce_window_slides s w :
  let s1 := snd (fst (Debounce clock circuit duration ctx s w)) in
  let w1 := snd (Debounce clock circuit duration ctx s w) in
  ticks w1 = S (S (ticks w)) /\
  threshold s1 = clock (S (ticks w)) + duration /\
  forall n,
    (forall i, (i < n)%nat ->
       clock (ticks w1 + 2 * i)%nat <
       clock (ticks w1 + 2 * i - 1)%nat + duration) ->
    exists sn wn,
      calls (Debounce clock circuit duration ctx) n s1 w1 =
      (repeat (result s1, err s1) n, sn, wn) /\
      invocations wn = invocations w1 /\
      (n <> O ->
       threshold sn = clock (ticks w1 + 2 * n - 1)%nat + duration).
Proof.
  intros s1 w1.
  assert (ticks w1 = S (S (ticks w)) /\
          threshold s1 = clock (S (ticks w)) + duration) as [Hticks Hth].
  { subst s1 w1.
    destruct (Z_lt_le_dec (clock (ticks w)) (threshold s)) as [H|H].
    - rewrite Debounce_cached by assumption. split; reflexivity.
    - rewrite Debounce_fresh by assumption. split; reflexivity. }
  split; [assumption|]. split; [assumption|].
  intros n Hnear. destruct n as [|n].
  - exists s1, w1. cbn. repeat split. intros H. contradiction.
  - destruct (Debounce_cached_run _ _ clock circuit duration ctx (S n) s1 w1)
      as (sn & wn & Hrun & _ & _ & Hinv & _ & _).
    + intros _. rewrite Hth. specialize (Hnear O).
      replace (ticks w1 + 2 * 0 - 1)%nat with (S (ticks w)) in Hnear by lia.
      replace (ticks w1 + 2 * 0)%nat with (ticks w1) in Hnear by lia.
      apply Hnear. lia.
    + intros i Hi. specialize (Hnear (S i)).
      replace (ticks w1 + 2 * S i - 1)%nat
        with (ticks w1 + 2 * i + 1)%nat in Hnear by lia.
      apply Hnear. lia.
    + exists sn, wn. split; [assumption|]. split; [assumption|].
      intros _.
      destruct (Debounce_threshold_after_run _ _ clock circuit duration ctx
                  n s1 w1 _ sn wn Hrun) as [Ht Hk].
      rewrite Ht, Hk. reflexivity.
Qed.

End DebounceClaims.

(** ** Retry *)

Section RetryFacts.

Variables Env Context : Type.
Variable select_wait : time.Duration -> Context -> Env -> woken * Env.
Variable ctx_Err : Context -> Env -> error.
Variable effector : Effector Env Context.
Variable retries : Z.
Variable delay : time.Duration.
Variable ctx : Context.

Implicit Types (r : Z) (w : World Env).

Local Notation "'loop'" :=
  (retry_loop select_wait ctx_Err effector retries delay ctx).
Local Notation "'try'" := (attempt effector ctx).
Local Notation "'pause'" := (wait select_wait delay ctx).

(** One turn of the loop. *)
Lemma retry_loop_turn r w :
  loop r w =
  let '((resp, err), w1) := try w in
  if is_nil err || (r >=? retries) then ((resp, nil), w1)
  else
    let '(k, w2) := pause w1 in
    match k with
    | timer_fired => loop (r + 1) w2
    | ctx_done => (("", ctx_Err ctx (env w2)), w2)
    end.
Proof.
  funelim (loop r w);
    match goal with H : try _ = _ |- _ => rewrite H end;
    cbn beta iota zeta;
    match goal with H : _ || _ = _ |- _ => rewrite H end;
    try match goal with H : pause _ = _ |- _ => rewrite H end;
    reflexivity.
Qed.

Lemma attempt_eq w :
  try w =
  ((fst (fst (effector ctx (env w))), snd (fst (effector ctx (env w)))),
   ran (snd (effector ctx (env w))) w).
Proof.
  unfold attempt, call. destruct (effector ctx (env w)) as [[resp err] e].
  reflexivity.
Qed.

Lemma wait_eq w :
  pause w =
  (fst (select_wait delay ctx (env w)),
   {| env := snd (select_wait delay ctx (env w));
      ticks := ticks w; invocations := invocations w |}).
Proof.
  unfold wait. destruct (select_wait delay ctx (env w)). reflexivity.
Qed.

(** The loop always returns, after at least one and at most
    [retries - r + 1] runs of the effector. *)
Lemma retry_loop_bound m : forall r w,
  Z.to_nat (retries - r) = m ->
  (invocations w < invocations (snd (loop r w)) <= invocations w + S m)%nat.
Proof.
  induction m as [|m IH]; intros r w Hm; rewrite retry_loop_turn, attempt_eq;
    destruct (is_nil (snd (fst (effector ctx (env w)))) || (r >=? retries))
      eqn:Hgo; try (cbn; lia);
    apply orb_false_iff in Hgo; destruct Hgo as [_ Hgo];
    rewrite Z.geb_leb in Hgo; apply Z.leb_gt in Hgo.
  rewrite wait_eq.
  destruct (fst (select_wait delay ctx _)); [|cbn; lia].
  match goal with |- context [loop (r + 1) ?w2] =>
    pose proof (IH (r + 1) w2 ltac:(lia)) as Hk; remember w2 as wn eqn:Hw2
  end.
  assert (invocations wn = S (invocations w)) as Hn by (subst wn; reflexivity).
  clear Hw2. cbn [snd] in *. lia.
Qed.

(** An effector that fails whatever the environment, under a context that
    is never done: the loop runs it [retries - r + 1] times and hands back
    a [nil] error. *)
Lemma retry_loop_all_fail m : forall r w,
  (forall e, snd (fst (effector ctx e)) <> nil) ->
  (forall e, fst (select_wait delay ctx e) = timer_fired) ->
  Z.to_nat (retries - r) = m ->
  invocations (snd (loop r w)) = (invocations w + S m)%nat /\
  snd (fst (loop r w)) = nil.
Proof.
  induction m as [|m IH]; intros r w Hfail Hpatient Hm;
    rewrite retry_loop_turn, attempt_eq;
    (destruct (snd (fst (effector ctx (env w)))) as [e|] eqn:He;
     [|exfalso; apply (Hfail (env w)); assumption]);
    cbn [is_nil orb].
  - replace (r >=? retries) with true
      by (symmetry; rewrite Z.geb_leb; apply Z.leb_le; lia).
    cbn. split; [lia|reflexivity].
  - replace (r >=? retries) with false
      by (symmetry; rewrite Z.geb_leb; apply Z.leb_gt; lia).
    rewrite wait_eq, Hpatient.
    match goal with |- context [loop (r + 1) ?w2] =>
      destruct (IH (r + 1) w2 Hfail Hpatient ltac:(lia)) as [Hn Hnil] end.
    rewrite Hn, Hnil. cbn. split; [lia|reflexivity].
Qed.

(** Where the loop has got to is where the call goes on from. *)
Lemma retry_at_loop w0 r w :
  retry_at select_wait effector retries delay ctx w0 r w ->
  Retry select_wait ctx_Err effector retries delay ctx w0 = loop r w /\
  0 <= r /\
  invocations w = (invocations w0 + Z.to_nat r)%nat.
Proof.
  induction 1 as [|r w resp err w1 w2 Hat [IHeq [IHr IHn]] Htry Hgo Hwait].
  - split; [reflexivity|]. split; [lia|]. cbn. lia.
  - split; [|split; [lia|]].
    + rewrite IHeq, retry_loop_turn, Htry, Hgo, Hwait. reflexivity.
    + rewrite attempt_eq in Htry. injection Htry as _ _ <-.
      rewrite wait_eq in Hwait. injection Hwait as _ <-.
      cbn. rewrite IHn, Z2Nat.inj_add by lia. cbn. lia.
Qed.

(** An effector that fails whatever the environment, under a context that
    is never done, takes the loop to every turn the budget allows. *)
Lemma retry_at_reaches w0 (k : nat) :
  (forall e, snd (fst (effector ctx e)) <> nil) ->
  (forall e, fst (select_wait delay ctx e) = timer_fired) ->
  Z.of_nat k <= retries ->
  exists w, retry_at select_wait effector retries delay ctx w0 (Z.of_nat k) w.
Proof.
  intros Hfail Hpatient. induction k as [|k IH]; intros Hk.
  - exists w0. apply retry_at_start.
  - destruct IH as [w Hat]; [lia|].
    exists (snd (pause (snd (try w)))).
    rewrite Nat2Z.inj_succ. unfold Z.succ.
    apply (retry_at_next _ _ select_wait effector retries delay ctx w0
             (Z.of_nat k) w (fst (fst (effector ctx (env w))))
             (snd (fst (effector ctx (env w)))) (snd (try w)));
      [exact Hat| | |].
    + rewrite attempt_eq. reflexivity.
    + apply orb_false_iff. split.
      * specialize (Hfail (env w)).
        destruct (snd (fst (effector ctx (env w)))); [reflexivity|].
        contradiction.
      * rewrite Z.geb_leb. apply Z.leb_gt. lia.
    + rewrite wait_eq, Hpatient. reflexivity.
Qed.

End RetryFacts.

Section RetryClaims.

Variables Env Context : Type.
Variable select_wait : time.Duration -> Context -> Env -> woken * Env.
Variable ctx_Err : Context -> Env -> error.
Variable effector : Effector Env Context.
Variable delay : time.Duration.
Variable ctx : Context.

Implicit Types (r : Z) (w : World Env).

(** C4. With a retry budget [m >= 0]: when the effector fails whatever
    the environment and the context is never done, a call gets to the turn
    with counter [m], runs the effector [m + 1] times in all, and returns
    the result of that last run with a [nil] error; on any turn a call
    gets to on which the effector succeeds or the counter has reached [m],
    the call returns that turn's result at once, with a [nil] error in
    place of the effector's; and whatever the effector and the context do,
    a call returns after at least one and at most [m + 1] runs. *)
Theorem Retry_attempts (m : Z) :
  0 <= m ->
  (forall w,
      (forall e, snd (fst (effector ctx e)) <> nil) ->
      (forall e, fst (select_wait delay ctx e) = timer_fired) ->
      invocations (snd (Retry select_wait ctx_Err effector m delay ctx w)) =
      (invocations w + S (Z.to_nat m))%nat /\
      snd (fst (Retry select_wait ctx_Err effector m delay ctx w)) = nil /\
      exists w',
        retry_at select_wait effector m delay ctx w m w' /\
        invocations w' = (invocations w + Z.to_nat m)%nat /\
        Retry select_wait ctx_Err effector m delay ctx w =
        ((fst (fst (effector ctx (env w'))), nil),
         ran (snd (effector ctx (env w'))) w')) /\
  (forall w0 r w resp err w1,
      retry_at select_wait effector m delay ctx w0 r w ->
      attempt effector ctx w = ((resp, err), w1) ->
      err = nil \/ m <= r ->
      Retry select_wait ctx_Err effector m delay ctx w0 = ((resp, nil), w1) /\
      invocations w1 = (invocations w0 + Z.to_nat r + 1)%nat) /\
  (forall r w resp err w1,
      attempt effector ctx w = ((resp, err), w1) ->
      err = nil \/ m <= r ->
      retry_loop select_wait ctx_Err effector m delay ctx r w =
      ((resp, nil), w1)) /\
  (forall w,
      (invocations w <
       invocations (snd (Retry select_wait ctx_Err effector m delay ctx w))
       <= invocations w + S (Z.to_nat m))%nat).
Proof.
  intros Hm.
  assert (forall r w resp err w1,
            attempt effector ctx w = ((resp, err), w1) ->
            err = nil \/ m <= r ->
            retry_loop select_wait ctx_Err effector m delay ctx r w =
            ((resp, nil), w1)) as Hstops.
  { intros r w resp err w1 Htry Hstop.
    rewrite retry_loop_turn, Htry.
    replace (is_nil err || (r >=? m)) with true; [reflexivity|].
    symmetry. apply orb_true_iff. destruct Hstop as [->|Hr].
    - left. reflexivity.
    - right. rewrite Z.geb_leb. apply Z.leb_le. assumption. }
  split; [|split; [|split]].
  - intros w Hfail Hpatient.
    split; [|split].
    + unfold Retry.
      apply retry_loop_all_fail; [assumption|assumption|f_equal; lia].
    + unfold Retry.
      apply (retry_loop_all_fail _ _ select_wait ctx_Err effector m delay ctx
               (Z.to_nat (m - 0))); [assumption|assumption|reflexivity].
    + destruct (retry_at_reaches _ _ select_wait effector m delay ctx
                  w (Z.to_nat m) Hfail Hpatient) as [w' Hat]; [lia|].
      rewrite Z2Nat.id in Hat by assumption.
      exists w'. split; [exact Hat|].
      destruct (retry_at_loop _ _ select_wait ctx_Err effector m delay ctx
                  w m w' Hat) as (Heq & _ & Hn).
      split; [exact Hn|].
      rewrite Heq. apply (Hstops m w' _ (snd (fst (effector ctx (env w'))))).
      * apply attempt_eq.
      * right. lia.
  - intros w0 r w resp err w1 Hat Htry Hstop.
    destruct (retry_at_loop _ _ select_wait ctx_Err effector m delay ctx
                w0 r w Hat) as (Heq & _ & Hn).
    split.
    + rewrite Heq. apply (Hstops r w resp err w1 Htry Hstop).
    + rewrite attempt_eq in Htry. injection Htry as _ _ <-. cbn. lia.
  - exact Hstops.
  - intros w. unfold Retry. apply retry_loop_bound. f_equal. lia.
Qed.

(** C8. When the loop has got to a turn on which the effector fails with
    budget left, and the [select] that follows wakes on [ctx.Done()], the
    call returns there and then with an empty result and [ctx.Err()]: the
    effector has been run once per turn so far and is not run again. *)
Theorem Retry_cancelled (retries : Z) w0 r w resp err w1 w2 :
  retry_at select_wait effector retries delay ctx w0 r w ->
  attempt effector ctx w = ((resp, err), w1) ->
  err <> nil ->
  r < retries ->
  wait select_wait delay ctx w1 = (ctx_done, w2) ->
  Retry select_wait ctx_Err effector retries delay ctx w0 =
  (("", ctx_Err ctx (env w2)), w2) /\
  invocations w2 = S (invocations w) /\
  invocations w2 = (invocations w0 + Z.to_nat r + 1)%nat.
Proof.
  intros Hat Htry Herr Hr Hwait.
  destruct (retry_at_loop _ _ select_wait ctx_Err effector retries delay ctx
              w0 r w Hat) as [Heq [Hr0 Hn]].
  assert (is_nil err || (r >=? retries) = false) as Hgo.
  { apply orb_false_iff. split.
    - destruct err; [reflexivity|contradiction].
    - rewrite Z.geb_leb. apply Z.leb_gt. assumption. }
  split.
  - rewrite Heq, retry_loop_turn, Htry, Hgo, Hwait. reflexivity.
  - rewrite attempt_eq in Htry. injection Htry as _ _ <-.
    rewrite wait_eq in Hwait. injection Hwait as _ <-.
    cbn. lia.
Qed.

End RetryClaims.

(** ** The decorators on the scripted environment *)

Import Script Scenario.

(** C1, where the code leaves it.  Threshold 1, the service down, and 34
    goroutines that enter the closure together: all of them are through the
    gate before the first failure is recorded, and the counter ends at 34,
    so [d = 33].  A call a second after the last of them has not passed
    [lastAttempt + 2^34 s], and yet the circuit is run: [2s << 33] does not
    fit 64 bits and comes out negative. *)
Theorem Breaker_backoff_overflows :
  let s := snd (fst after_burst) in
  let w := snd after_burst in
  consecutiveFailures s - 1 = 33 /\
  overshoot s 1 = 33 /\
  burst_clock (ticks w) <= lastAttempt s + 2 ^ (33 + 1) * time.Second /\
  backoff 33 = -1266874889709551616 /\
  fst (fst (Breaker burst_clock service 1 tt s w)) = ("down", Some boom) /\
  invocations (snd (Breaker burst_clock service 1 tt s w)) =
  S (invocations w) /\
  consecutiveFailures (snd (fst (Breaker burst_clock service 1 tt s w))) = 35.
Proof.
  vm_compute. repeat split; try reflexivity. discriminate.
Qed.

(** The same after 33 calls one after the other, each made just after the
    backoff of the one before has run out, with threshold 0. *)
Lemma Breaker_backoff_overflows_in_sequence :
  let s := snd (fst after_33) in
  let w := snd after_33 in
  invocations w = 33%nat /\
  consecutiveFailures s = 33 /\
  waited_out (ticks w) = lastAttempt s + time.Second /\
  waited_out (ticks w) <= lastAttempt s + 2 ^ (33 + 1) * time.Second /\
  invocations (snd (Breaker waited_out service 0 tt s w)) = 34%nat.
Proof.
  vm_compute. repeat split; try reflexivity. discriminate.
Qed.

(** A threshold of 2^63 or more turns negative in [int(failureThreshold)].
    With the largest [uint], [consecutiveFailures - failureThreshold] is far
    below 0 for a new breaker, but the code has [d = 1]: a call one second
    after construction is turned away. *)
Lemma Breaker_threshold_conversion_wraps :
  let s := fst (fresh seconds) in
  let w := snd (fresh seconds) in
  consecutiveFailures s - Int64.max_uint < 0 /\
  overshoot s Int64.max_uint = 1 /\
  Breaker seconds service Int64.max_uint tt s w =
  (("", Some service_unreachable), s, tick w).
Proof.
  vm_compute. repeat split; reflexivity.
Qed.

(** C2 as it was stated fails here.  Threshold 1 and two failed runs of
    the circuit, so the second is the failure number 0 beyond the
    threshold, for which the claim has a backoff of [2^(0+1)] seconds.  The
    next call reads a clock 3 s after [lastAttempt]: the 2 s are over, and
    the call is still turned away without a run of the circuit, the backoff
    being 4 s. *)
Lemma Breaker_first_excess_failure_waits_four_seconds :
  let s := snd (fst after_two) in
  let w := snd after_two in
  Forall (fun r => snd r <> nil) (fst (fst after_two)) /\
  Z.of_nat (invocations w) = 1 + 1 + 0 /\
  consecutiveFailures s - 1 = 1 /\
  paced (ticks w) = lastAttempt s + 3 * time.Second /\
  lastAttempt s + 2 ^ (0 + 1) * time.Second < paced (ticks w) /\
  Breaker paced service 1 tt s w =
  (("", Some service_unreachable), s, tick w) /\
  invocations (snd (Breaker paced service 1 tt s w)) = invocations w /\
  backoff (overshoot s 1) <> 2 ^ (0 + 1) * time.Second.
Proof.
  vm_compute. repeat split; try reflexivity; try discriminate.
  repeat constructor; discriminate.
Qed.

(** C5 as it was stated fails here.  The first call runs the service and
    completes at 1 s; the second call, made at 2 s, is served from the cache
    and completes at 3 s, which moves the threshold to 13 s.  The third call
    is made at 12 s: the ten seconds since the completion of the first call
    have gone by, and still it is served from the cache and the service is
    not run again. *)
Lemma Debounce_third_call_still_cached :
  invocations (snd gap_first) = 1%nat /\
  gap_clock 1 = 1 * time.Second /\
  gap_clock (ticks (snd gap_first)) < gap_clock 1 + ten_seconds /\
  invocations (snd gap_second) = 1%nat /\
  gap_clock (ticks (snd gap_second)) = 12 * time.Second /\
  gap_clock 1 + ten_seconds <= gap_clock (ticks (snd gap_second)) /\
  threshold (snd (fst gap_second)) = 13 * time.Second /\
  invocations (snd gap_third) = 1%nat /\
  invocations (snd gap_third) <> S (invocations (snd gap_second)).
Proof.
  vm_compute. repeat split; try reflexivity; discriminate.
Qed.

(** C6 as it was stated fails here.  The first call runs the service, which
    fails with [boom]; the second call reads a clock before the threshold and
    is served from the cache without a run of the service; the error it
    returns is [boom], not [nil]. *)
Lemma Debounce_cache_error_not_nil :
  let s1 := snd (fst first_call) in
  let w1 := snd first_call in
  snd (fst (service tt (env (start [] [])))) = Some boom /\
  seconds (ticks w1) < threshold s1 /\
  invocations (snd second_call) = invocations w1 /\
  fst (fst second_call) = ("down", Some boom) /\
  snd (fst (fst second_call)) <> nil.
Proof.
  vm_compute. repeat split; try reflexivity; discriminate.
Qed.

(** C7, where the code leaves it.  The first call of a new debounce runs the
    service, the service returns the error [boom], and the caller gets
    [nil]. *)
Theorem Debounce_drops_fresh_error :
  fst (service tt (env (start [] []))) = ("down", Some boom) /\
  invocations (snd first_call) = 1%nat /\
  fst (fst first_call) = ("down", nil) /\
  err (snd (fst first_call)) = Some boom.
Proof.
  vm_compute. repeat split; reflexivity.
Qed.

(** The breaker's half of C7: a call that runs the circuit returns what the
    circuit returned. *)
Lemma Breaker_propagates_error {Env Context} (clock : nat -> time.Time)
      (circuit : Circuit Env Context) (t : Z) (ctx : Context)
      (s : breaker) (w : World Env) :
  invocations (snd (Breaker clock circuit t ctx s w)) = S (invocations w) ->
  fst (fst (Breaker clock circuit t ctx s w)) = fst (circuit ctx (env w)).
Proof.
  intros Hrun.
  destruct (Breaker_outcomes _ _ clock circuit t ctx s w)
    as [[_ Heq]|(w1 & _ & Henv & Heq)]; rewrite Heq in *.
  - cbn in Hrun. exfalso. lia.
  - rewrite Breaker_proceed_eq. cbn. rewrite Henv.
    destruct (circuit ctx (env w)) as [[response e] en]. reflexivity.
Qed.

(** The loop counter of Retry never leaves the range of [int]: it is
    incremented only below [retries]. *)
Lemma retry_counter_in_range (retries r : Z) :
  Int64.in_range retries -> 0 <= r < retries -> Int64.add r 1 = r + 1.
Proof.
  intros Hrange Hr. unfold Int64.add. apply wrap_small.
  unfold Int64.in_range, Int64.min_int, Int64.max_int in *. lia.
Qed.

(** ** Instances *)

Lemma Breaker_trips_past_threshold_witness :
  let first := calls (Breaker paced service 1 tt) 1
                 (fst (fresh paced)) (snd (fresh paced)) in
  let last := Breaker paced service 1 tt (snd (fst first)) (snd first) in
  let s := snd (fst last) in
  let w := snd last in
  (Int64.uint_range 1 /\ 0 <= 0 <= 2 /\
   snd (fst (fst last)) <> nil /\
   invocations w = S (invocations (snd first)) /\
   Z.of_nat (invocations w) =
   Z.of_nat (invocations (snd (fresh paced))) + (1 + 1 + 0)) /\
  overshoot s 1 = 1 /\
  backoff (overshoot s 1) = 4 * time.Second /\
  lastAttempt s = paced 3 /\
  paced (ticks w) = lastAttempt s + 3 * time.Second /\
  Breaker paced service 1 tt s w = (("", Some service_unreachable), s, tick w).
Proof.
  intros first last s w.
  assert (Int64.uint_range 1) as Hu by (vm_compute; split; discriminate).
  assert (0 <= 0 <= 2) as Hk by lia.
  assert (snd (fst (fst last)) <> nil) as Hfail by discriminate.
  assert (invocations w = S (invocations (snd first))) as Hone
    by reflexivity.
  assert (Z.of_nat (invocations w)
          = Z.of_nat (invocations (snd (fresh paced))) + (1 + 1 + 0)) as Hn
    by reflexivity.
  split; [exact (conj Hu (conj Hk (conj Hfail (conj Hone Hn))))|].
  destruct (Breaker_trips_past_threshold _ _ paced service tt 1 0 1
              (fst (fresh paced)) (snd (fresh paced))
              (fst (fst first)) (snd (fst first)) (snd first)
              (fst (fst last)) s w
              Hu Hk eq_refl)
    as (Ho & Hb & Hpin & Hshut & _).
  - reflexivity.
  - vm_compute. repeat constructor; discriminate.
  - reflexivity.
  - exact Hfail.
  - exact Hone.
  - exact Hn.
  - split; [exact Ho|]. split; [exact Hb|]. split; [exact Hpin|].
    split; [reflexivity|].
    apply Hshut. vm_compute. discriminate.
Defined.

Lemma Breaker_counter_witness :
  let s := fst (fresh seconds) in
  let w := snd (fresh seconds) in
  let call := Breaker seconds service 3 tt s w in
  0 <= consecutiveFailures s < Int64.max_int /\
  consecutiveFailures (snd (fst call)) = consecutiveFailures s + 1.
Proof.
  intros s w call.
  assert (0 <= consecutiveFailures s < Int64.max_int) as Hcf
    by (vm_compute; split; [discriminate|reflexivity]).
  split; [exact Hcf|].
  destruct (Breaker_counter _ _ seconds service tt 3 s w
              (fst (fst call)) (snd (fst call)) (snd call) Hcf eq_refl)
    as (_ & _ & Hrun & _).
  apply Hrun; [reflexivity|discriminate].
Defined.

Lemma Breaker_gate_at_threshold_witness :
  let s := {| consecutiveFailures := 2; lastAttempt := 0 |} in
  let w := start [] [] in
  (0 <= 2 <= Int64.max_int /\ consecutiveFailures s = 2 /\
   millis (ticks w) <= lastAttempt s + 2 * time.Second) /\
  Breaker millis service 2 tt s w =
  (("", Some service_unreachable), s, tick w) /\
  calls (Breaker millis service 0 tt) 3
    (fst (fresh millis)) (snd (fresh millis)) =
  (repeat ("", Some service_unreachable) 3, fst (fresh millis),
   {| env := env (snd (fresh millis)); ticks := 4; invocations := 0 |}).
Proof.
  intros s w.
  destruct (Breaker_gate_at_threshold _ _ millis service tt) as [Hat Hnew].
  assert (0 <= 2 <= Int64.max_int) as Ht
    by (vm_compute; split; discriminate).
  assert (millis (ticks w) <= lastAttempt s + 2 * time.Second) as Hnow
    by (vm_compute; discriminate).
  split; [auto|]. split.
  - destruct (Hat 2 s w Ht eq_refl) as [_ Hshut]. apply Hshut. exact Hnow.
  - destruct (Hnew (start [] []) 3%nat) as (_ & _ & Hrun); [|exact Hrun].
    intros i Hi.
    change (ticks (snd (Breaker_new millis (start [] [])))) with 1%nat.
    change (ticks (start [] [])) with 0%nat.
    unfold millis, every, time.Second. lia.
Defined.

Lemma Retry_attempts_witness :
  let try := attempt Scenario2.numbered tt in
  let pause := wait patient time.Second tt in
  let w0 := Scenario2.three_words in
  let w1 := snd (pause (snd (try w0))) in
  let w2 := snd (pause (snd (try w1))) in
  let w3 := snd (pause (snd (try w2))) in
  let out :=
    Retry patient ctx_Err Scenario2.numbered 3 time.Second tt w0 in
  (0 <= 3 /\
   retry_at patient Scenario2.numbered 3 time.Second tt w0 3 w3 /\
   try w3 = (("last", Some boom), snd (try w3))) /\
  out = (("last", nil), snd (try w3)) /\
  invocations (snd out) = 4%nat /\
  snd (fst out) = nil.
Proof.
  intros try pause w0 w1 w2 w3 out.
  assert (0 <= 3) as Hm by lia.
  assert (forall r w w' word,
            retry_at patient Scenario2.numbered 3 time.Second tt w0 r w ->
            try w = ((word, Some boom), snd (try w)) ->
            (r >=? 3) = false ->
            w' = snd (pause (snd (try w))) ->
            retry_at patient Scenario2.numbered 3 time.Second tt w0
              (r + 1) w') as Hnext.
  { intros r w w' word Hat Htry Hr ->.
    apply (retry_at_next _ _ patient Scenario2.numbered 3 time.Second tt w0
             r w word (Some boom) (snd (try w))).
    - exact Hat.
    - exact Htry.
    - exact Hr.
    - reflexivity. }
  assert (retry_at patient Scenario2.numbered 3 time.Second tt w0 3 w3)
    as Hat.
  { apply (Hnext 2 w2 w3 "third"); [|reflexivity|reflexivity|reflexivity].
    apply (Hnext 1 w1 w2 "second"); [|reflexivity|reflexivity|reflexivity].
    apply (Hnext 0 w0 w1 "first"); [|reflexivity|reflexivity|reflexivity].
    apply retry_at_start. }
  assert (try w3 = (("last", Some boom), snd (try w3))) as Htry
    by reflexivity.
  split; [exact (conj Hm (conj Hat Htry))|].
  destruct (Retry_attempts _ _ patient ctx_Err Scenario2.numbered
              time.Second tt 3 Hm) as (Hall & Hcall & _ & _).
  destruct (Hcall w0 3 w3 "last" (Some boom) (snd (try w3)) Hat Htry)
    as [Hout _]; [right; lia|].
  split; [exact Hout|].
  destruct (Hall w0) as (Hn & Hnil & _).
  - intros e. unfold Scenario2.numbered.
    destruct (replies e); discriminate.
  - intros e. reflexivity.
  - split; [exact Hn|exact Hnil].
Defined.

Lemma Retry_cancelled_witness :
  let w := ran {| replies := []; wakes := [ctx_done] |} cancelled_start in
  let w1 := ran {| replies := []; wakes := [ctx_done] |} w in
  let w2 := ran {| replies := []; wakes := [] |} w in
  (retry_at select_wait service 3 time.Second tt cancelled_start 1 w /\
   attempt service tt w = (("down", Some boom), w1) /\
   Some boom <> nil /\ 1 < 3 /\
   wait select_wait time.Second tt w1 = (ctx_done, w2)) /\
  Retry select_wait ctx_Err service 3 time.Second tt cancelled_start =
  (("", Some context_Canceled), w2) /\
  invocations w2 = 2%nat.
Proof.
  intros w w1 w2.
  assert (retry_at select_wait service 3 time.Second tt cancelled_start 1 w)
    as Hat.
  { apply (retry_at_next _ _ select_wait service 3 time.Second tt
             cancelled_start 0 cancelled_start "down" (Some boom)
             (ran {| replies := []; wakes := [timer_fired; ctx_done] |}
                  cancelled_start) w).
    - apply retry_at_start.
    - reflexivity.
    - reflexivity.
    - reflexivity. }
  assert (Some boom <> nil) as Herr by discriminate.
  assert (1 < 3) as Hr by lia.
  split; [repeat split; auto|].
  destruct (Retry_cancelled _ _ select_wait ctx_Err service time.Second tt 3
              cancelled_start 1 w "down" (Some boom) w1 w2
              Hat eq_refl Herr Hr eq_refl) as (Hret & Hone & _).
  split; [exact Hret|exact Hone].
Defined.

Lemma Debounce_coalesces_witness :
  (threshold Debounce_new <= seconds (ticks (start [] [])) /\
   seconds (ticks (snd first_call)) < seconds 1 + ten_seconds) /\
  fst (fst second_call) = ("down", Some boom) /\
  invocations (snd second_call) = 1%nat.
Proof.
  destruct (Debounce_coalesces _ _ seconds service ten_seconds tt)
    as (_ & Htwo & _).
  assert (threshold Debounce_new <= seconds (ticks (start [] []))) as H0
    by (vm_compute; discriminate).
  assert (seconds (ticks (snd first_call)) < seconds 1 + ten_seconds) as H1
    by (vm_compute; reflexivity).
  split; [split; [exact H0|exact H1]|].
  destruct (Htwo Debounce_new (start [] []) H0) as (_ & Hsoon).
  apply Hsoon. exact H1.
Defined.

Lemma Debounce_replays_cached_error_witness :
  let s1 := snd (fst first_call) in
  let w1 := snd first_call in
  (threshold Debounce_new <= seconds (ticks (start [] [])) /\
   seconds (ticks w1) < threshold s1) /\
  fst (fst second_call) = ("down", Some boom).
Proof.
  intros s1 w1.
  assert (threshold Debounce_new <= seconds (ticks (start [] []))) as H0
    by (vm_compute; discriminate).
  assert (seconds (ticks w1) < threshold s1) as H1
    by (vm_compute; reflexivity).
  split; [split; [exact H0|exact H1]|].
  destruct (Debounce_replays_cached_error _ _ seconds service ten_seconds tt
              Debounce_new (start [] []) w1 H0 H1) as (_ & _ & Hpair & _).
  exact Hpair.
Defined.

Lemma Debounce_window_slides_witness :
  let s1 := snd (fst first_call) in
  let w1 := snd first_call in
  (forall i, (i < 5)%nat ->
     seconds (ticks w1 + 2 * i)%nat <
     seconds (ticks w1 + 2 * i - 1)%nat + ten_seconds) /\
  threshold s1 = seconds 1 + ten_seconds /\
  fst (fst (calls (Debounce seconds service ten_seconds tt) 5 s1 w1)) =
  repeat ("down", Some boom) 5 /\
  invocations (snd (calls (Debounce seconds service ten_seconds tt) 5 s1 w1)) =
  1%nat.
Proof.
  intros s1 w1.
  assert (forall i, (i < 5)%nat ->
            seconds (ticks w1 + 2 * i)%nat <
            seconds (ticks w1 + 2 * i - 1)%nat + ten_seconds) as Hnear.
  { intros i Hi. change (ticks w1) with 2%nat.
    unfold seconds, every, ten_seconds, time.Second. lia. }
  split; [exact Hnear|].
  destruct (Debounce_window_slides _ _ seconds service ten_seconds tt
              Debounce_new (start [] [])) as (_ & Hth & Hrun).
  split; [exact Hth|].
  destruct (Hrun 5%nat Hnear) as (sn & wn & Heq & Hinv & _).
  change (calls (Debounce seconds service ten_seconds tt) 5 s1 w1 =
          (repeat ("down", Some boom) 5, sn, wn)) in Heq.
  rewrite Heq. split; [reflexivity|exact Hinv].
Defined.

(** * More on the decorators *)

(** ** Breaker *)

Section BreakerMore.

Variables Env Context : Type.
Variable clock : nat -> time.Time.
Variable circuit : Circuit Env Context.
Variable ctx : Context.

Implicit Types (s : breaker) (w : World Env) (t d : Z).

Lemma calls_app {V} (f : M Env V Response) (n m : nat) : forall v w,
  calls f (n + m) v w =
  let '(rs1, v1, w1) := calls f n v w in
  let '(rs2, v2, w2) := calls f m v1 w1 in
  ((rs1 ++ rs2)%list, v2, w2).
Proof.
  induction n as [|n IH]; intros v w.
  - cbn [calls Nat.add]. unfold ret.
    destruct (calls f m v w) as [[rs2 v2] w2]. reflexivity.
  - change (S n + m)%nat with (S (n + m)). rewrite !calls_S.
    destruct (f v w) as [[r v1] w1]. rewrite IH.
    destruct (calls f n v1 w1) as [[rs1 v2] w2].
    destruct (calls f m v2 w2) as [[rs2 v3] w3]. reflexivity.
Qed.

(** X1. Calls that are turned away do not put the probe off.  From a state
    at or past the threshold, [n] calls that read a clock not past
    [lastAttempt + backoff] are all turned away and leave the state as it
    was, and the call after them, the first to read a later clock, runs the
    circuit: over the [n + 1] calls the circuit is run once, and
    [lastAttempt] becomes the reading made after that run. *)
Theorem Breaker_rejections_do_not_postpone t n s w :
  0 <= overshoot s t ->
  (forall i, (i < n)%nat ->
     clock (ticks w + i)%nat <= lastAttempt s + backoff (overshoot s t)) ->
  lastAttempt s + backoff (overshoot s t) < clock (ticks w + n)%nat ->
  let run := calls (Breaker clock circuit t ctx) (n + 1) s w in
  fst (fst run) =
    (repeat ("", Some service_unreachable) n
     ++ [fst (circuit ctx (env w))])%list /\
  invocations (snd run) = S (invocations w) /\
  lastAttempt (snd (fst run)) = clock (ticks w + n + 1)%nat.
Proof.
  intros Hd Hshut Hlate run. subst run.
  rewrite calls_app.
  rewrite (Breaker_turns_away_all _ _ clock circuit ctx t n s w Hd Hshut).
  rewrite calls_S.
  rewrite Breaker_probes by (cbn [ticks]; assumption).
  rewrite Breaker_proceed_eq. cbn [calls]. unfold ret.
  cbn [tick ran env ticks invocations fst snd lastAttempt app].
  destruct (circuit ctx (env w)) as [[response e] en].
  repeat split. f_equal. lia.
Qed.

(** X2. A breaker whose threshold is above the number of calls it gets is
    not in the way: with the counter at 0 and [n < t], [n] calls through the
    breaker return what [n] calls of the bare circuit return, leave the
    environment as those leave it, run the circuit [n] times and read the
    clock once per call. *)
Theorem Breaker_transparent_below_threshold t n : forall s w,
  consecutiveFailures s = 0 ->
  Z.of_nat n < t <= Int64.max_int ->
  let run := calls (Breaker clock circuit t ctx) n s w in
  fst (fst run) = fst (direct circuit ctx n (env w)) /\
  env (snd run) = snd (direct circuit ctx n (env w)) /\
  invocations (snd run) = (invocations w + n)%nat /\
  ticks (snd run) = (ticks w + n)%nat.
Proof.
  assert (forall m s w,
            0 <= consecutiveFailures s ->
            consecutiveFailures s + Z.of_nat m < t <= Int64.max_int ->
            let run := calls (Breaker clock circuit t ctx) m s w in
            fst (fst run) = fst (direct circuit ctx m (env w)) /\
            env (snd run) = snd (direct circuit ctx m (env w)) /\
            invocations (snd run) = (invocations w + m)%nat /\
            ticks (snd run) = (ticks w + m)%nat) as Hgen.
  { induction m as [|m IH]; intros s w H0 Ht run; subst run.
    - cbn. repeat split; lia.
    - rewrite calls_S. cbn [direct].
      rewrite Breaker_closed.
      2:{ unfold overshoot, Int64.sub, Int64.of_uint.
          rewrite (wrap_small t), wrap_small;
            unfold Int64.in_range, Int64.min_int, Int64.max_int in *; lia. }
      rewrite Breaker_proceed_eq. cbn zeta.
      destruct (circuit ctx (env w)) as [[response e] en]. cbn [fst snd].
      match goal with |- context [calls _ m ?s1 ?w1] =>
        specialize (IH s1 w1) end.
      cbn [consecutiveFailures tick ran env ticks invocations] in IH.
      destruct IH as (Hrs & Henv & Hinv & Hticks).
      + destruct (negb (is_nil e)); [|lia].
        unfold Int64.add. rewrite wrap_small; [lia|].
        unfold Int64.in_range, Int64.min_int, Int64.max_int in *. lia.
      + destruct (negb (is_nil e)); [|lia].
        unfold Int64.add. rewrite wrap_small; [lia|].
        unfold Int64.in_range, Int64.min_int, Int64.max_int in *. lia.
      + destruct (calls _ m _ _) as [[rs s2] w2].
        destruct (direct circuit ctx m en) as [rs' e2].
        cbn [fst snd] in *. subst rs'. repeat split; try assumption; lia. }
  intros s w H0 Ht. apply Hgen; lia.
Qed.

(** X3. A probe that fails doubles the wait.  With the counter [d] past a
    threshold within [int], [0 <= d < 32], and not at the end of [int], a
    call that reads a clock past
    [lastAttempt + backoff] and whose run of the circuit fails leaves the
    counter one higher, [lastAttempt] at the reading made after the run, and
    a backoff twice as long. *)
Theorem Breaker_failed_probe_doubles t s w :
  0 <= t <= Int64.max_int ->
  consecutiveFailures s < Int64.max_int ->
  0 <= consecutiveFailures s - t < 32 ->
  lastAttempt s + backoff (overshoot s t) < clock (ticks w) ->
  snd (fst (circuit ctx (env w))) <> nil ->
  let s' := snd (fst (Breaker clock circuit t ctx s w)) in
  overshoot s' t = overshoot s t + 1 /\
  lastAttempt s' = clock (S (ticks w)) /\
  backoff (overshoot s' t) = 2 * backoff (overshoot s t) /\
  0 < backoff (overshoot s t).
Proof.
  intros Ht Hmax Hd Hlate Hfail s'.
  assert (forall c, 0 <= c - t <= 32 ->
            Int64.sub c (Int64.of_uint t) = c - t) as Hsub.
  { intros c Hc. unfold Int64.sub, Int64.of_uint.
    rewrite (wrap_small t), wrap_small;
      unfold Int64.in_range, Int64.min_int, Int64.max_int in *; lia. }
  assert (overshoot s t = consecutiveFailures s - t) as Ho
    by (apply Hsub; lia).
  subst s'. rewrite Breaker_probes; [|rewrite Ho; lia|assumption].
  rewrite Breaker_proceed_eq. cbn zeta. cbn [fst snd tick env ticks].
  destruct (snd (fst (circuit ctx (env w)))) as [e|]; [|contradiction].
  cbn [is_nil negb lastAttempt].
  assert (Int64.add (consecutiveFailures s) 1 = consecutiveFailures s + 1)
    as Hinc.
  { unfold Int64.add. apply wrap_small.
    unfold Int64.in_range, Int64.min_int, Int64.max_int in *. lia. }
  unfold overshoot at 1 3. cbn [consecutiveFailures]. rewrite Hinc.
  rewrite Hsub by lia. rewrite Ho.
  rewrite !backoff_exact by lia.
  replace (consecutiveFailures s + 1 - t + 1)
    with (consecutiveFailures s - t + 1 + 1) by lia.
  rewrite (Z.pow_add_r 2 (consecutiveFailures s - t + 1) 1) by lia.
  assert (0 < 2 ^ (consecutiveFailures s - t + 1))
    by (apply Z.pow_pos_nonneg; lia).
  unfold time.Second. repeat split; lia.
Qed.

(** X4. From 54 past the threshold on nothing is left of the shift: the
    backoff is 0, and a call is turned away only if its clock reading is
    not past [lastAttempt] itself. *)
Theorem Breaker_backoff_vanishes t s w :
  54 <= overshoot s t ->
  backoff (overshoot s t) = 0 /\
  (lastAttempt s < clock (ticks w) ->
   invocations (snd (Breaker clock circuit t ctx s w)) = S (invocations w)) /\
  (clock (ticks w) <= lastAttempt s ->
   Breaker clock circuit t ctx s w =
   (("", Some service_unreachable), s, tick w)).
Proof.
  intros Hd.
  assert (backoff (overshoot s t) = 0) as Hb.
  { unfold backoff, Int64.shl. rewrite Z.shiftl_mul_pow2 by lia.
    replace (overshoot s t) with (54 + (overshoot s t - 54)) by lia.
    rewrite Z.pow_add_r by lia.
    replace (time.Second * 2 * (2 ^ 54 * 2 ^ (overshoot s t - 54)))
      with (0 + (1953125 * 2 ^ (overshoot s t - 54)) * Int64.modulus)
      by (unfold time.Second, Int64.modulus;
          change (2 ^ 54) with 18014398509481984; lia).
    rewrite wrap_periodic. reflexivity. }
  split; [assumption|]. split.
  - intros Hlate. rewrite Breaker_probes by (rewrite ?Hb; lia).
    rewrite Breaker_proceed_invokes. reflexivity.
  - intros Hnow. apply Breaker_rejects; rewrite ?Hb; lia.
Qed.

(** Callers that are all through the gate section each run the circuit. *)
Lemma Breaker_proceed_all_through n : forall s w,
  invocations
    (snd (Breaker_proceed_all clock circuit ctx (repeat false n) s w)) =
  (invocations w + n)%nat.
Proof.
  induction n as [|n IH]; intros s w.
  - cbn. lia.
  - cbn [repeat Breaker_proceed_all]. unfold bind at 1.
    rewrite Breaker_proceed_eq. cbn zeta. unfold bind at 1.
    match goal with |- context [Breaker_proceed_all _ _ _ _ ?s1 ?w1] =>
      specialize (IH s1 w1);
      destruct (Breaker_proceed_all clock circuit ctx (repeat false n) s1 w1)
        as [[rs s2] w2] end.
    unfold ret. cbn [snd tick ran invocations] in *. lia.
Qed.

(** X16. The gate does not count the callers it lets in.  When [n]
    goroutines go through the gate section before any of them records its
    outcome, and the gate is open to each (the counter is below the
    threshold, or every one of them reads a clock past
    [lastAttempt + backoff]), all [n] run the circuit. *)
Theorem Breaker_burst_all_through t n s w :
  overshoot s t < 0 \/
  (forall i, (i < n)%nat ->
     lastAttempt s + backoff (overshoot s t) < clock (ticks w + i)%nat) ->
  invocations (snd (Breaker_burst clock circuit t ctx n s w)) =
  (invocations w + n)%nat.
Proof.
  intros Hopen. unfold Breaker_burst, bind.
  assert (exists w1,
            Breaker_gates clock t n s w = (repeat false n, s, w1) /\
            invocations w1 = invocations w) as (w1 & -> & <-).
  { revert w Hopen. induction n as [|n IH]; intros w Hopen.
    - exists w. split; reflexivity.
    - cbn [Breaker_gates repeat]. unfold bind at 1.
      rewrite Breaker_gate_eq.
      destruct (Z_lt_le_dec (overshoot s t) 0) as [Hneg|Hpos].
      + replace (overshoot s t >=? 0) with false
          by (symmetry; rewrite Z.geb_leb; apply Z.leb_gt; assumption).
        destruct (IH w (or_introl Hneg)) as (w1 & Hg & Hinv).
        unfold bind. rewrite Hg. exists w1. split; [reflexivity|assumption].
      + destruct Hopen as [Hneg|Hlate]; [exfalso; lia|].
        replace (overshoot s t >=? 0) with true
          by (symmetry; rewrite Z.geb_leb; apply Z.leb_le; assumption).
        replace (clock (ticks w) <=? _) with false.
        2:{ symmetry. apply Z.leb_gt. specialize (Hlate O).
            rewrite Nat.add_0_r in Hlate. apply Hlate. lia. }
        destruct (IH (tick w)) as (w1 & Hg & Hinv).
        { right. intros i Hi. cbn [tick ticks].
          replace (S (ticks w) + i)%nat with (ticks w + S i)%nat by lia.
          apply Hlate. lia. }
        unfold bind. rewrite Hg. exists w1. split; [reflexivity|assumption]. }
  apply Breaker_proceed_all_through.
Qed.

End BreakerMore.

(** ** Debounce *)

Section DebounceMore.

Variables Env Context : Type.
Variable clock : nat -> time.Time.
Variable circuit : Circuit Env Context.
Variable duration : time.Duration.
Variable ctx : Context.

Implicit Types (s : debounce) (w : World Env).

(** A run of calls none of which finds the threshold ahead of it. *)
Lemma Debounce_fresh_run n : forall s w,
  (n <> O -> threshold s <= clock (ticks w)) ->
  (forall i, (S i < n)%nat ->
     clock (ticks w + 2 * i + 1)%nat + duration <=
     clock (ticks w + 2 * S i)%nat) ->
  let run := calls (Debounce clock circuit duration ctx) n s w in
  fst (fst run) =
    map (fun r => (fst r, nil)) (fst (direct circuit ctx n (env w))) /\
  env (snd run) = snd (direct circuit ctx n (env w)) /\
  invocations (snd run) = (invocations w + n)%nat.
Proof.
  induction n as [|n IH]; intros s w Hfirst Hnext run; subst run.
  - cbn. repeat split. lia.
  - rewrite calls_S, Debounce_fresh by (apply Hfirst; discriminate).
    cbn zeta. cbn [direct].
    destruct (circuit ctx (env w)) as [[response e] en]. cbn [fst snd].
    match goal with |- context [calls _ n ?s1 ?w1] =>
      specialize (IH s1 w1) end.
    cbn [threshold tick ran ticks env invocations] in IH.
    destruct IH as (Hrs & Henv & Hinv).
    + intros Hn. destruct n as [|n]; [contradiction|].
      specialize (Hnext O).
      replace (ticks w + 2 * 0 + 1)%nat with (S (ticks w)) in Hnext by lia.
      replace (ticks w + 2 * 1)%nat with (S (S (ticks w))) in Hnext by lia.
      apply Hnext. lia.
    + intros i Hi.
      replace (S (S (ticks w)) + 2 * i + 1)%nat
        with (ticks w + 2 * S i + 1)%nat by lia.
      replace (S (S (ticks w)) + 2 * S i)%nat
        with (ticks w + 2 * S (S i))%nat by lia.
      apply Hnext. lia.
    + destruct (calls _ n _ _) as [[rs s2] w2].
      destruct (direct circuit ctx n en) as [rs' e2].
      cbn [fst snd map] in *. subst rs. repeat split; try assumption. lia.
Qed.

(** X5. Calls that keep their distance all reach the circuit.  When the
    first call does not find the threshold ahead of it and each later call
    reads a clock at least [duration] after the completion of the call
    before, [n] calls run the circuit [n] times: they return the result
    strings of [n] calls of the bare circuit, each with a [nil] error, and
    leave the environment as those leave it. *)
Theorem Debounce_spaced_calls_all_run n s w :
  threshold s <= clock (ticks w) ->
  (forall i, (S i < n)%nat ->
     clock (ticks w + 2 * i + 1)%nat + duration <=
     clock (ticks w + 2 * S i)%nat) ->
  let run := calls (Debounce clock circuit duration ctx) n s w in
  fst (fst run) =
    map (fun r => (fst r, nil)) (fst (direct circuit ctx n (env w))) /\
  env (snd run) = snd (direct circuit ctx n (env w)) /\
  invocations (snd run) = (invocations w + n)%nat.
Proof.
  intros Hfirst Hnext. apply Debounce_fresh_run; auto.
Qed.

(** X6. A duration of zero or less switches the debounce off.  With a clock
    that never goes back, and a first call that does not find the threshold
    ahead of it, every one of [n] calls runs the circuit. *)
Theorem Debounce_nonpositive_duration n s w :
  duration <= 0 ->
  (forall i, clock i <= clock (S i)) ->
  threshold s <= clock (ticks w) ->
  let run := calls (Debounce clock circuit duration ctx) n s w in
  invocations (snd run) = (invocations w + n)%nat /\
  Forall (fun r => snd r = nil) (fst (fst run)).
Proof.
  intros Hdur Hmono Hfirst run.
  destruct (Debounce_fresh_run n s w) as (Hrs & _ & Hinv).
  - intros _. assumption.
  - intros i Hi.
    replace (ticks w + 2 * S i)%nat with (S (ticks w + 2 * i + 1)) by lia.
    specialize (Hmono (ticks w + 2 * i + 1)%nat). lia.
  - subst run. split; [assumption|]. rewrite Hrs.
    apply Forall_forall. intros r Hr. apply in_map_iff in Hr.
    destruct Hr as (r0 & <- & _). reflexivity.
Qed.

End DebounceMore.

(** ** Retry *)

Section RetryMore.

Variables Env Context : Type.
Variable select_wait : time.Duration -> Context -> Env -> woken * Env.
Variable ctx_Err : Context -> Env -> error.
Variable effector : Effector Env Context.
Variable retries : Z.
Variable delay : time.Duration.
Variable ctx : Context.

Implicit Types (r : Z) (w : World Env).

Local Notation "'loop'" :=
  (retry_loop select_wait ctx_Err effector retries delay ctx).

(** The loop as long as the effector fails and the timer wins.  [Before m]
    is what holds of the environment at the start of a turn with [m] turns
    to follow, [After m] what holds once the effector has run on it. *)
Lemma retry_loop_while_failing (Before After : nat -> Env -> Prop)
      (str : string) :
  (forall m e, Before m e ->
     snd (fst (effector ctx e)) <> nil /\
     fst (fst (effector ctx e)) = str /\
     After m (snd (effector ctx e))) ->
  (forall m e, After (S m) e ->
     fst (select_wait delay ctx e) = timer_fired /\
     Before m (snd (select_wait delay ctx e))) ->
  forall m r w,
    Z.to_nat (retries - r) = m ->
    Before m (env w) ->
    fst (loop r w) = (str, nil) /\
    invocations (snd (loop r w)) = (invocations w + S m)%nat /\
    After O (env (snd (loop r w))).
Proof.
  intros Hfail Htimer.
  induction m as [|m IH]; intros r w Hm HP;
    rewrite retry_loop_turn, attempt_eq;
    destruct (Hfail _ (env w) HP) as (He & Hstr & HP1);
    (destruct (snd (fst (effector ctx (env w)))) as [e0|];
     [|contradiction]); cbn [is_nil orb].
  - replace (r >=? retries) with true
      by (symmetry; rewrite Z.geb_leb; apply Z.leb_le; lia).
    rewrite Hstr. cbn. repeat split; [lia|assumption].
  - replace (r >=? retries) with false
      by (symmetry; rewrite Z.geb_leb; apply Z.leb_gt; lia).
    rewrite wait_eq. cbn [ran env].
    destruct (Htimer _ _ HP1) as [-> HP2].
    match goal with |- context [loop (r + 1) ?w2] =>
      destruct (IH (r + 1) w2 ltac:(lia) HP2) as (Hres & Hn & HP3) end.
    rewrite Hres, Hn. cbn. repeat split; [lia|assumption].
Qed.

(** With a context that is never done the error handed back is [nil]. *)
Lemma retry_loop_not_cancelled :
  (forall e, fst (select_wait delay ctx e) = timer_fired) ->
  forall m r w,
    Z.to_nat (retries - r) = m -> snd (fst (loop r w)) = nil.
Proof.
  intros Htimer.
  induction m as [|m IH]; intros r w Hm;
    rewrite retry_loop_turn, attempt_eq;
    destruct (is_nil (snd (fst (effector ctx (env w)))) || (r >=? retries))
      eqn:Hgo; try reflexivity;
    apply orb_false_iff in Hgo; destruct Hgo as [_ Hgo];
    rewrite Z.geb_leb in Hgo; apply Z.leb_gt in Hgo.
  - exfalso. lia.
  - rewrite wait_eq, Htimer. apply IH. lia.
Qed.

(** X7. The loop stops at the first success.  When a call has got to a turn
    on which the effector succeeds, it returns that turn's result with a
    [nil] error straight after the run, the effector having been run once
    per turn. *)
Theorem Retry_stops_at_first_success w0 r w resp w1 :
  retry_at select_wait effector retries delay ctx w0 r w ->
  attempt effector ctx w = ((resp, nil), w1) ->
  Retry select_wait ctx_Err effector retries delay ctx w0 = ((resp, nil), w1) /\
  invocations w1 = (invocations w0 + Z.to_nat r + 1)%nat.
Proof.
  intros Hat Htry.
  destruct (retry_at_loop _ _ select_wait ctx_Err effector retries delay ctx
              w0 r w Hat) as (Heq & Hr & Hn).
  split.
  - rewrite Heq, retry_loop_turn, Htry. reflexivity.
  - rewrite attempt_eq in Htry. injection Htry as _ _ <-. cbn. lia.
Qed.

(** X8. A budget of zero or less, negative ones included, means one run:
    the effector is run once, its result comes back with a [nil] error
    whether it failed or not, and the [select] is never reached. *)
Theorem Retry_without_budget w :
  retries <= 0 ->
  let out := effector ctx (env w) in
  Retry select_wait ctx_Err effector retries delay ctx w =
  ((fst (fst out), nil), ran (snd out) w).
Proof.
  intros Hm out. unfold Retry. rewrite retry_loop_turn, attempt_eq.
  replace (0 >=? retries) with true
    by (symmetry; rewrite Z.geb_leb; apply Z.leb_le; assumption).
  rewrite orb_true_r. reflexivity.
Qed.

(** X9. The error of the effector never comes out.  A call returns either
    with a [nil] error, after at least one run, or with an empty result and
    [ctx.Err()]. *)
Theorem Retry_never_surfaces_error w :
  let out := Retry select_wait ctx_Err effector retries delay ctx w in
  snd (fst out) = nil \/
  fst out = ("", ctx_Err ctx (env (snd out))).
Proof.
  cbn zeta. unfold Retry.
  assert (forall m r w0, Z.to_nat (retries - r) = m ->
            snd (fst (loop r w0)) = nil \/
            fst (loop r w0) = ("", ctx_Err ctx (env (snd (loop r w0)))))
    as Hgen.
  { induction m as [|m IH]; intros r w0 Hm;
      rewrite retry_loop_turn, attempt_eq;
      destruct (is_nil (snd (fst (effector ctx (env w0)))) || (r >=? retries))
        eqn:Hgo; try (left; reflexivity);
      apply orb_false_iff in Hgo; destruct Hgo as [_ Hgo];
      rewrite Z.geb_leb in Hgo; apply Z.leb_gt in Hgo.
    - exfalso. lia.
    - rewrite wait_eq.
      destruct (fst (select_wait delay ctx _)).
      + apply IH. lia.
      + right. reflexivity. }
  apply (Hgen (Z.to_nat (retries - 0))). reflexivity.
Qed.

End RetryMore.

(** ** Decorators over decorators *)

Section StackingFacts.

Variables Env Context : Type.
Variable clock : nat -> time.Time.
Variable select_wait : time.Duration -> Context -> Env -> woken * Env.
Variable ctx_Err : Context -> Env -> error.
Variable circuit : Circuit Env Context.
Variable retries : Z.
Variable delay : time.Duration.
Variable ctx : Context.

(** X10. A breaker around a retry does not trip while the context is not
    done.  [Retry] hands back a [nil] error whenever its [select] does not
    wake on [ctx.Done()], so with a threshold of at least 1 and the counter
    at 0, every one of [n] calls of [Breaker(Retry(circuit))] gets through
    to the retry, returns a [nil] error, and leaves the counter at 0,
    whatever the circuit does. *)
Theorem Breaker_over_Retry_never_trips (t : Z) (n : nat) :
  forall (s : breaker) (w : World (World Env)),
  (forall e, fst (select_wait delay ctx e) = timer_fired) ->
  1 <= t <= Int64.max_int ->
  consecutiveFailures s = 0 ->
  let retried := Retry select_wait ctx_Err circuit retries delay in
  let run := calls (Breaker clock retried t ctx) n s w in
  Forall (fun r => snd r = nil) (fst (fst run)) /\
  consecutiveFailures (snd (fst run)) = 0 /\
  invocations (snd run) = (invocations w + n)%nat.
Proof.
  induction n as [|n IH]; intros s w Htimer Ht H0 retried run; subst run.
  - cbn. repeat split; [constructor|assumption|lia].
  - rewrite calls_S. rewrite Breaker_closed.
    2:{ unfold overshoot, Int64.sub, Int64.of_uint.
        rewrite (wrap_small t), H0, wrap_small;
          unfold Int64.in_range, Int64.min_int, Int64.max_int in *; lia. }
    rewrite Breaker_proceed_eq. cbn zeta.
    assert (snd (fst (retried ctx (env w))) = nil) as Hnil.
    { subst retried. unfold Retry.
      apply (retry_loop_not_cancelled _ _ select_wait ctx_Err circuit
               retries delay ctx Htimer (Z.to_nat (retries - 0))).
      reflexivity. }
    rewrite Hnil. cbn [is_nil negb nil].
    match goal with |- context [calls _ n ?s1 ?w1] =>
      specialize (IH s1 w1 Htimer Ht eq_refl) end.
    cbn zeta in IH. fold retried in IH.
    destruct (calls (Breaker clock retried t ctx) n _ _) as [[rs s2] w2].
    cbn [fst snd tick ran invocations] in *.
    destruct IH as (Hall & Hc & Hinv).
    repeat split; [constructor; [reflexivity|assumption]|assumption|lia].
Qed.

(** X11. A retry around a breaker that is shut goes through its whole
    budget against the gate.  When the breaker is at or past its threshold,
    the [retries + 1] clock readings the call makes are all within the
    backoff, and the context is not done, [Retry(Breaker(circuit))] with
    budget [retries >= 0] tries [retries + 1] times, every try is turned
    away, the circuit is not run and the breaker's variables stay as they
    are; and the caller gets an empty result with a [nil] error, "service
    unreachable" being dropped like any other error. *)
Theorem Retry_over_shut_Breaker (t : Z) (s : breaker) (w : World Env)
        (outer : World (breaker * World Env)) :
  0 <= retries ->
  env outer = (s, w) ->
  0 <= overshoot s t ->
  (forall i, (i <= Z.to_nat retries)%nat ->
     clock (ticks w + i)%nat <= lastAttempt s + backoff (overshoot s t)) ->
  (forall e, fst (select_wait delay ctx e) = timer_fired) ->
  let out :=
    Retry (select_under select_wait) (ctx_Err_under ctx_Err)
      (as_Circuit (Breaker clock circuit t)) retries delay ctx outer in
  fst out = ("", nil) /\
  invocations (snd out) = (invocations outer + S (Z.to_nat retries))%nat /\
  fst (env (snd out)) = s /\
  invocations (snd (env (snd out))) = invocations w /\
  ticks (snd (env (snd out))) = (ticks w + S (Z.to_nat retries))%nat.
Proof.
  intros Hm Henv Hd Hshut Htimer out. subst out. unfold Retry.
  pose (budget := Z.to_nat retries).
  pose (Before := fun (m : nat) (e : breaker * World Env) =>
                    fst e = s /\ invocations (snd e) = invocations w /\
                    (m <= budget)%nat /\
                    ticks (snd e) = (ticks w + (budget - m))%nat).
  pose (After := fun (m : nat) (e : breaker * World Env) =>
                   fst e = s /\ invocations (snd e) = invocations w /\
                   (m <= budget)%nat /\
                   ticks (snd e) = (ticks w + (budget - m) + 1)%nat).
  destruct (retry_loop_while_failing _ _ (select_under select_wait)
              (ctx_Err_under ctx_Err) (as_Circuit (Breaker clock circuit t))
              retries delay ctx Before After "")
    with (m := Z.to_nat (retries - 0)) (r := 0) (w := outer)
    as (Hres & Hn & HP).
  - intros m [s1 w1] (Hs & Hinv & Hle & Hticks). cbn [fst snd] in *.
    subst s1. unfold as_Circuit. cbn [fst snd].
    rewrite Breaker_rejects.
    + cbn [fst snd]. repeat split; try discriminate; try assumption.
      cbn [snd tick ticks]. lia.
    + assumption.
    + rewrite Hticks. apply Hshut. fold budget. lia.
  - intros m [s1 w1] (Hs & Hinv & Hle & Hticks). cbn [fst snd] in *.
    unfold select_under. cbn [fst snd].
    specialize (Htimer (env w1)).
    destruct (select_wait delay ctx (env w1)) as [k e1]. cbn [fst] in Htimer.
    subst k. unfold Before. cbn [fst snd ticks invocations].
    repeat split; try assumption; lia.
  - reflexivity.
  - rewrite Henv. unfold Before. cbn [fst snd].
    replace (retries - 0) with retries by lia. fold budget.
    repeat split; lia.
  - destruct HP as (Hs & Hinv & _ & Hticks).
    rewrite Hres, Hn. replace (retries - 0) with retries by lia.
    split; [reflexivity|]. split; [reflexivity|]. split; [assumption|].
    split; [assumption|]. rewrite Hticks. fold budget. lia.
Qed.

End StackingFacts.

(** ** The future *)

Section FutureFacts.

Import Future.

(** X12. [Result] receives once.  A first call that returns has taken one
    value from each channel, and these two are what it returns; any call
    after it returns the same pair and leaves the future, channels
    included, as it is. *)
Theorem Result_receives_once (f f1 : InnerFuture) (r : Response) :
  Result f = Some (r, f1) ->
  Result f1 = Some (r, f1) /\
  (once f = false ->
   resCh f = fst r :: resCh f1 /\ errCh f = snd r :: errCh f1) /\
  (once f = true -> f1 = f).
Proof.
  unfold Result. destruct (once f) eqn:Honce.
  - destruct (wg f =? 0) eqn:Hwg; [|discriminate].
    intros H. injection H as <- <-. rewrite Honce, Hwg.
    split; [reflexivity|]. split; [discriminate|reflexivity].
  - unfold Result_once, recv.
    destruct (resCh f) as [|a resCh']; [discriminate|].
    destruct (errCh f) as [|b errCh']; [discriminate|].
    cbn [wg once res err].
    destruct (wg f + 1 - 1 =? 0) eqn:Hwg; [|discriminate].
    intros H. injection H as <- <-.
    cbn [once wg res err resCh errCh fst snd].
    rewrite Hwg. split; [reflexivity|].
    split; [intros _; split; reflexivity|discriminate].
Qed.

End FutureFacts.

(** ** [stream] *)

Section StreamFacts.

Import Stream.

Variables Env Context : Type.
Variable select_send : Context -> Z -> Env -> chosen * Env.
Variable ctx_Err : Context -> Env -> error.
Variable WithTimeout : Context -> time.Duration -> Context.

Lemma stream_loop_outcome (ctx : Context) (resp : Z) (fuel : nat) :
  forall e log,
    let out := stream_loop select_send ctx_Err fuel ctx resp e log in
    exists k,
      snd out = (repeat resp k ++ log)%list /\
      ((fst (fst out) = None /\ k = fuel) \/
       (fst (fst out) = Some (ctx_Err ctx (snd (fst out))) /\
        (k < fuel)%nat)).
Proof.
  induction fuel as [|fuel IH]; intros e log out; subst out.
  - exists O. cbn. auto.
  - cbn [stream_loop].
    destruct (select_send ctx resp e) as [[|] e1].
    + destruct (IH e1 (resp :: log)) as (k & Hlog & Hcase).
      exists (S k). split.
      * rewrite Hlog. change (resp :: log) with ([resp] ++ log)%list.
        rewrite app_assoc. f_equal.
        change (repeat resp (S k)) with ([resp] ++ repeat resp k)%list.
        clear. induction k as [|k IHk]; [reflexivity|].
        cbn [repeat app] in *. rewrite IHk. reflexivity.
      * destruct Hcase as [[Hr Hk]|[Hr Hk]]; [left|right]; split;
          try assumption; lia.
    + exists O. cbn. split; [reflexivity|]. right. split; [reflexivity|lia].
Qed.


(** X15. [stream] does not end by itself.  As long as [out] has a taker
    whenever the [select] is reached, the loop goes on: whatever the fuel,
    it has not returned and has sent one 0 per turn.  The ten-second
    timeout set up at the start does not end it. *)
Theorem stream_goes_on (fuel : nat) (ctx : Context) (e : Env) :
  (forall e', fst (select_send ctx 0 e') = sent) ->
  let out := stream select_send ctx_Err WithTimeout fuel ctx e in
  fst (fst out) = None /\ snd out = repeat 0 fuel.
Proof.
  intros Htaker. unfold stream, slowOperation. cbn [is_nil negb nil].
  assert (forall n e0 log,
            let out := stream_loop select_send ctx_Err n ctx 0 e0 log in
            fst (fst out) = None /\ snd out = (repeat 0 n ++ log)%list)
    as Hgen.
  { induction n as [|n IH]; intros e0 log out; subst out.
    - cbn. auto.
    - cbn [stream_loop]. specialize (Htaker e0).
      destruct (select_send ctx 0 e0) as [c e1]. cbn [fst] in Htaker.
      subst c. destruct (IH e1 (0 :: log)) as [Hr Hlog].
      split; [assumption|]. rewrite Hlog.
      change (0 :: log) with ([0] ++ log)%list. rewrite app_assoc.
      f_equal. clear. induction n as [|n IHn]; [reflexivity|].
      cbn [repeat app] in *. rewrite IHn. reflexivity. }
  destruct (Hgen fuel e []) as [Hr Hlog].
  rewrite app_nil_r in Hlog. split; assumption.
Qed.

End StreamFacts.

(** ** Instances of the further properties *)

Import Scenario2.

Lemma Breaker_rejections_do_not_postpone_witness :
  let run :=
    calls (Breaker seconds service 0 tt) (5 + 1) tripped (start [] []) in
  (0 <= overshoot tripped 0 /\
   lastAttempt tripped + backoff (overshoot tripped 0) < seconds 5) /\
  fst (fst run) =
    (repeat ("", Some service_unreachable) 5 ++ [("down", Some boom)])%list /\
  invocations (snd run) = 1%nat /\
  lastAttempt (snd (fst run)) = seconds 6.
Proof.
  intros run.
  assert (0 <= overshoot tripped 0) as Hd by (vm_compute; discriminate).
  assert (lastAttempt tripped + backoff (overshoot tripped 0) <
          seconds (ticks (start [] []) + 5)) as Hlate
    by (vm_compute; reflexivity).
  split; [split; [exact Hd|exact Hlate]|].
  apply (Breaker_rejections_do_not_postpone _ _ seconds service tt 0 5
           tripped (start [] []) Hd); [|exact Hlate].
  intros i Hi.
  change (lastAttempt tripped + backoff (overshoot tripped 0))
    with 4000000000.
  change (ticks (start [] [])) with 0%nat.
  unfold seconds, every, time.Second. lia.
Defined.

Lemma Breaker_transparent_below_threshold_witness :
  let s := {| consecutiveFailures := 0; lastAttempt := 0 |} in
  let run := calls (Breaker seconds flaky 5 tt) 3 s twice_down in
  (consecutiveFailures s = 0 /\ Z.of_nat 3 < 5 <= Int64.max_int) /\
  fst (fst run) = [failed; failed; ("fine", nil)] /\
  invocations (snd run) = 3%nat.
Proof.
  intros s run.
  assert (Z.of_nat 3 < 5 <= Int64.max_int) as Ht
    by (vm_compute; split; [reflexivity|discriminate]).
  split; [split; [reflexivity|exact Ht]|].
  destruct (Breaker_transparent_below_threshold _ _ seconds flaky tt 5 3
              s twice_down eq_refl Ht) as (Hrs & _ & Hinv & _).
  split; [exact Hrs|exact Hinv].
Defined.

Lemma Breaker_failed_probe_doubles_witness :
  let w := {| env := env (start [] []); ticks := 5; invocations := 0 |} in
  let s' := snd (fst (Breaker seconds service 0 tt tripped w)) in
  (0 <= 0 <= Int64.max_int /\
   consecutiveFailures tripped < Int64.max_int /\
   0 <= consecutiveFailures tripped - 0 < 32 /\
   lastAttempt tripped + backoff (overshoot tripped 0) < seconds (ticks w) /\
   snd (fst (service tt (env w))) <> nil) /\
  backoff (overshoot tripped 0) = 4 * time.Second /\
  backoff (overshoot s' 0) = 2 * backoff (overshoot tripped 0).
Proof.
  intros w s'.
  assert (0 <= 0 <= Int64.max_int) as Ht by (vm_compute; split; discriminate).
  assert (consecutiveFailures tripped < Int64.max_int) as Hmax
    by (vm_compute; reflexivity).
  assert (0 <= consecutiveFailures tripped - 0 < 32) as Hd
    by (vm_compute; split; [discriminate|reflexivity]).
  assert (lastAttempt tripped + backoff (overshoot tripped 0) <
          seconds (ticks w)) as Hlate by (vm_compute; reflexivity).
  assert (snd (fst (service tt (env w))) <> nil) as Hfail by discriminate.
  split; [exact (conj Ht (conj Hmax (conj Hd (conj Hlate Hfail))))|].
  split; [reflexivity|].
  destruct (Breaker_failed_probe_doubles _ _ seconds service tt 0 tripped w
              Ht Hmax Hd Hlate Hfail) as (_ & _ & Hdouble & _).
  exact Hdouble.
Defined.

Lemma Breaker_backoff_vanishes_witness :
  let s := {| consecutiveFailures := 60; lastAttempt := 0 |} in
  let w := {| env := env (start [] []); ticks := 1; invocations := 0 |} in
  (54 <= overshoot s 0 /\ lastAttempt s < seconds (ticks w)) /\
  backoff (overshoot s 0) = 0 /\
  invocations (snd (Breaker seconds service 0 tt s w)) = 1%nat.
Proof.
  intros s w.
  assert (54 <= overshoot s 0) as Hd by (vm_compute; discriminate).
  assert (lastAttempt s < seconds (ticks w)) as Hlate
    by (vm_compute; reflexivity).
  split; [split; assumption|].
  destruct (Breaker_backoff_vanishes _ _ seconds service tt 0 s w Hd)
    as (Hb & Hrun & _).
  split; [exact Hb|]. apply Hrun. exact Hlate.
Defined.

Lemma Debounce_spaced_calls_all_run_witness :
  let clock := every (20 * time.Second) in
  let run := calls (Debounce clock flaky ten_seconds tt) 3
               Debounce_new twice_down in
  threshold Debounce_new <= clock (ticks twice_down) /\
  fst (fst run) = [("down", nil); ("down", nil); ("fine", nil)] /\
  invocations (snd run) = 3%nat.
Proof.
  intros clock run.
  assert (threshold Debounce_new <= clock (ticks twice_down)) as Hfirst
    by (vm_compute; discriminate).
  split; [exact Hfirst|].
  destruct (Debounce_spaced_calls_all_run _ _ clock flaky ten_seconds tt 3
              Debounce_new twice_down Hfirst) as (Hrs & _ & Hinv).
  - intros i Hi. change (ticks twice_down) with 0%nat.
    unfold clock, every, ten_seconds, time.Second. lia.
  - split; [exact Hrs|exact Hinv].
Defined.

Lemma Debounce_nonpositive_duration_witness :
  let run := calls (Debounce seconds service (-1) tt) 3
               Debounce_new (start [] []) in
  (-1 <= 0 /\ threshold Debounce_new <= seconds (ticks (start [] []))) /\
  invocations (snd run) = 3%nat.
Proof.
  intros run.
  assert (-1 <= 0) as Hdur by lia.
  assert (threshold Debounce_new <= seconds (ticks (start [] []))) as Hfirst
    by (vm_compute; discriminate).
  split; [split; assumption|].
  destruct (Debounce_nonpositive_duration _ _ seconds service (-1) tt 3
              Debounce_new (start [] []) Hdur) as (Hinv & _).
  - intros i. unfold seconds, every, time.Second. lia.
  - exact Hfirst.
  - exact Hinv.
Defined.

Lemma Retry_stops_at_first_success_witness :
  let try := attempt flaky tt in
  let pause := wait patient time.Second tt in
  let w1 := snd (pause (snd (try twice_down))) in
  let w2 := snd (pause (snd (try w1))) in
  (retry_at patient flaky 3 time.Second tt twice_down 2 w2 /\
   try w2 = (("fine", nil), snd (try w2))) /\
  Retry patient ctx_Err flaky 3 time.Second tt twice_down =
  (("fine", nil), snd (try w2)) /\
  invocations (snd (try w2)) = 3%nat.
Proof.
  intros try pause w1 w2.
  assert (retry_at patient flaky 3 time.Second tt twice_down 1 w1) as Hat1.
  { apply (retry_at_next _ _ patient flaky 3 time.Second tt twice_down
             0 twice_down "down" (Some boom) (snd (try twice_down)) w1).
    - apply retry_at_start.
    - reflexivity.
    - reflexivity.
    - reflexivity. }
  assert (retry_at patient flaky 3 time.Second tt twice_down 2 w2) as Hat2.
  { apply (retry_at_next _ _ patient flaky 3 time.Second tt twice_down
             1 w1 "down" (Some boom) (snd (try w1)) w2).
    - exact Hat1.
    - reflexivity.
    - reflexivity.
    - reflexivity. }
  assert (try w2 = (("fine", nil), snd (try w2))) as Htry by reflexivity.
  split; [split; assumption|].
  apply (Retry_stops_at_first_success _ _ patient ctx_Err flaky 3
           time.Second tt twice_down 2 w2 "fine" (snd (try w2)) Hat2 Htry).
Defined.

Lemma Retry_without_budget_witness :
  -2 <= 0 /\
  Retry select_wait ctx_Err service (-2) time.Second tt cancelled_start =
  (("down", nil), ran (env cancelled_start) cancelled_start).
Proof.
  assert (-2 <= 0) as Hm by lia.
  split; [exact Hm|].
  apply (Retry_without_budget _ _ select_wait ctx_Err service (-2)
           time.Second tt cancelled_start Hm).
Defined.

Lemma Breaker_over_Retry_never_trips_witness :
  let s := {| consecutiveFailures := 0; lastAttempt := 0 |} in
  let w := {| env := start [] []; ticks := 0; invocations := 0 |} in
  let retried := Retry patient ctx_Err down 2 time.Second in
  let run := calls (Breaker seconds retried 1 tt) 3 s w in
  (1 <= 1 <= Int64.max_int /\ consecutiveFailures s = 0) /\
  consecutiveFailures (snd (fst run)) = 0 /\
  invocations (snd run) = 3%nat /\
  invocations (env (snd run)) = 9%nat.
Proof.
  intros s w retried run.
  assert (1 <= 1 <= Int64.max_int) as Ht by (vm_compute; split; discriminate).
  split; [split; [exact Ht|reflexivity]|].
  destruct (Breaker_over_Retry_never_trips _ _ seconds patient ctx_Err down 2
              time.Second tt 1 3 s w (fun e => eq_refl) Ht eq_refl)
    as (_ & Hc & Hinv).
  split; [exact Hc|]. split; [exact Hinv|reflexivity].
Defined.

Lemma Retry_over_shut_Breaker_witness :
  let outer := {| env := (tripped, start [] []); ticks := 0;
                  invocations := 0 |} in
  let out :=
    Retry (select_under patient) (ctx_Err_under ctx_Err)
      (as_Circuit (Breaker seconds down 0)) 3 time.Second tt outer in
  (0 <= 3 /\ 0 <= overshoot tripped 0 /\
   seconds 3 <= lastAttempt tripped + backoff (overshoot tripped 0)) /\
  fst out = ("", nil) /\
  invocations (snd out) = 4%nat /\
  invocations (snd (env (snd out))) = 0%nat.
Proof.
  intros outer out.
  assert (0 <= 3) as Hm by lia.
  assert (0 <= overshoot tripped 0) as Hd by (vm_compute; discriminate).
  assert (seconds 3 <= lastAttempt tripped + backoff (overshoot tripped 0))
    as Hlast by (vm_compute; discriminate).
  split; [exact (conj Hm (conj Hd Hlast))|].
  destruct (Retry_over_shut_Breaker _ _ seconds patient ctx_Err down 3
              time.Second tt 0 tripped (start [] []) outer Hm eq_refl Hd)
    as (Hres & Hn & _ & Hinner & _).
  - intros i Hi.
    change (lastAttempt tripped + backoff (overshoot tripped 0))
      with 4000000000.
    change (ticks (start [] [])) with 0%nat.
    change (Z.to_nat 3) with 3%nat in Hi.
    unfold seconds, every, time.Second. lia.
  - intros e. reflexivity.
  - split; [exact Hres|]. split; [exact Hn|exact Hinner].
Defined.

Lemma Result_receives_once_witness :
  let e := {| replies := []; wakes := [ctx_done] |} in
  let f := fst (Future.SlowFunction select_wait ctx_Err tt e) in
  let f1 := {| Future.once := true; Future.wg := 0;
               Future.res := ""; Future.err := Some context_Canceled;
               Future.resCh := []; Future.errCh := [] |} in
  Future.Result f = Some (("", Some context_Canceled), f1) /\
  Future.Result f1 = Some (("", Some context_Canceled), f1).
Proof.
  intros e f f1.
  assert (Future.Result f = Some (("", Some context_Canceled), f1)) as Hfirst
    by reflexivity.
  split; [exact Hfirst|].
  destruct (Result_receives_once f f1 _ Hfirst) as (Hagain & _).
  exact Hagain.
Defined.

Lemma stream_goes_on_witness :
  let taker := fun (_ : unit) (_ : Z) (e : script) => (Stream.sent, e) in
  let out := Stream.stream taker ctx_Err (fun c _ => c) 3 tt
               (env (start [] [])) in
  (forall e', fst (taker tt 0 e') = Stream.sent) /\
  fst (fst out) = None /\ snd out = [0; 0; 0].
Proof.
  intros taker out.
  assert (forall e', fst (taker tt 0 e') = Stream.sent) as Htaker
    by (intros e'; reflexivity).
  split; [exact Htaker|].
  apply (stream_goes_on _ _ taker ctx_Err (fun c _ => c) 3 tt
           (env (start [] [])) Htaker).
Defined.

Lemma Breaker_burst_all_through_witness :
  let s := fst (fresh burst_clock) in
  let w := snd (fresh burst_clock) in
  overshoot s 1 < 0 /\
  invocations (snd (Breaker_burst burst_clock service 1 tt 34 s w)) = 34%nat.
Proof.
  intros s w.
  assert (overshoot s 1 < 0) as Hneg by (vm_compute; reflexivity).
  split; [exact Hneg|].
  apply (Breaker_burst_all_through _ _ burst_clock service tt 1 34 s w
           (or_introl Hneg)).
Defined.

